(** * Verification of the GC CPU limiter, the small-map fast path and the
      directory maintenance of the Swiss-table map, and P-521 point decoding.

    The development is a shallow embedding: every Go function that a
    property talks about is transcribed as a Rocq function over explicit
    state, with Go's fixed-width integers written as [Z] together with
    their wrap-around. *)

From Stdlib Require Import ZArith Lia Bool String.
From stdpp Require Import base option list gmap.

Local Open Scope Z_scope.

(** ** Fixed-width integers *)

(** Conversion to [uint64]: reduction modulo 2^64. *)
Definition u64 (z : Z) : Z := z mod 18446744073709551616.

(** Conversion to [int64]: two's complement wrap-around. *)
Definition i64 (z : Z) : Z :=
  (z + 9223372036854775808) mod 18446744073709551616 - 9223372036854775808.

(** Conversion to [uint8]. *)
Definition u8 (z : Z) : Z := z mod 256.

Lemma u64_range z : 0 <= u64 z < 18446744073709551616.
Proof. unfold u64. apply Z.mod_pos_bound. lia. Qed.

Lemma u64_small z : 0 <= z < 18446744073709551616 -> u64 z = z.
Proof. intros H. unfold u64. apply Z.mod_small. exact H. Qed.

Lemma i64_range z : - 9223372036854775808 <= i64 z < 9223372036854775808.
Proof.
  unfold i64.
  pose proof (Z.mod_pos_bound (z + 9223372036854775808) 18446744073709551616).
  lia.
Qed.

Lemma i64_small z :
  - 9223372036854775808 <= z < 9223372036854775808 -> i64 z = z.
Proof. intros H. unfold i64. rewrite Z.mod_small; lia. Qed.

Lemma u64_of_neg z :
  - 18446744073709551616 <= z < 0 -> u64 z = z + 18446744073709551616.
Proof.
  intros H. unfold u64.
  symmetry. apply (Z.mod_unique_pos _ _ (-1)); lia.
Qed.

(** Fallible runtime code: [throw] and [panic] abort with a message. *)
Inductive result (A : Type) : Type :=
| Ok (a : A)
| Throw (msg : string).
Arguments Ok {A} a.
Arguments Throw {A} msg.

(** ** runtime/mgclimit.go *)
Module Limiter.

Record gcCPULimiterState : Type := mkLimiter {
  lock : Z;                 (* atomic.Uint32 *)
  enabled : bool;           (* atomic.Bool *)
  fill : Z;                 (* bucket.fill, uint64 *)
  capacity : Z;             (* bucket.capacity, uint64 *)
  overflow : Z;             (* uint64 *)
  gcEnabled : bool;
  transitioning : bool;
  lastTotalAssistTime : Z;  (* int64 *)
  lastUpdate : Z;           (* atomic.Int64 *)
  nprocs : Z                (* int32 *)
}.

Definition set_lock v l := mkLimiter v (enabled l) (fill l) (capacity l)
  (overflow l) (gcEnabled l) (transitioning l) (lastTotalAssistTime l)
  (lastUpdate l) (nprocs l).
Definition set_enabled v l := mkLimiter (lock l) v (fill l) (capacity l)
  (overflow l) (gcEnabled l) (transitioning l) (lastTotalAssistTime l)
  (lastUpdate l) (nprocs l).
Definition set_fill v l := mkLimiter (lock l) (enabled l) v (capacity l)
  (overflow l) (gcEnabled l) (transitioning l) (lastTotalAssistTime l)
  (lastUpdate l) (nprocs l).
Definition set_capacity v l := mkLimiter (lock l) (enabled l) (fill l) v
  (overflow l) (gcEnabled l) (transitioning l) (lastTotalAssistTime l)
  (lastUpdate l) (nprocs l).
Definition set_overflow v l := mkLimiter (lock l) (enabled l) (fill l)
  (capacity l) v (gcEnabled l) (transitioning l) (lastTotalAssistTime l)
  (lastUpdate l) (nprocs l).
Definition set_gcEnabled v l := mkLimiter (lock l) (enabled l) (fill l)
  (capacity l) (overflow l) v (transitioning l) (lastTotalAssistTime l)
  (lastUpdate l) (nprocs l).
Definition set_transitioning v l := mkLimiter (lock l) (enabled l) (fill l)
  (capacity l) (overflow l) (gcEnabled l) v (lastTotalAssistTime l)
  (lastUpdate l) (nprocs l).
Definition set_lastTotalAssistTime v l := mkLimiter (lock l) (enabled l)
  (fill l) (capacity l) (overflow l) (gcEnabled l) (transitioning l) v
  (lastUpdate l) (nprocs l).
Definition set_lastUpdate v l := mkLimiter (lock l) (enabled l) (fill l)
  (capacity l) (overflow l) (gcEnabled l) (transitioning l)
  (lastTotalAssistTime l) v (nprocs l).
Definition set_nprocs v l := mkLimiter (lock l) (enabled l) (fill l)
  (capacity l) (overflow l) (gcEnabled l) (transitioning l)
  (lastTotalAssistTime l) (lastUpdate l) v.

(** [capacityPerProc = 1e9]. *)
Definition capacityPerProc : Z := 1000000000.

(** [limiting]. *)
Definition limiting (l : gcCPULimiterState) : bool := enabled l.

(** [accumulate]: the bucket arithmetic.  [headroom] is a [uint64]
    difference, [change] an [int64] difference, and [uint64(-change)]
    converts the negated [int64]. *)
Definition accumulate (mutatorTime gcTime : Z) (l : gcCPULimiterState)
  : gcCPULimiterState :=
  let headroom := u64 (capacity l - fill l) in
  let enabled0 := headroom =? 0 in
  let change := i64 (gcTime - mutatorTime) in
  if (0 <? change) && (headroom <=? u64 change) then
    let l := set_overflow (u64 (overflow l + u64 (u64 change - headroom))) l in
    let l := set_fill (capacity l) l in
    if negb enabled0 then set_enabled true l else l
  else
    let l :=
      if (change <? 0) && (fill l <=? u64 (i64 (- change)))
      then set_fill 0 l
      else set_fill (u64 (fill l - u64 (i64 (- change)))) l in
    if negb (change =? 0) && enabled0 then set_enabled false l else l.

(** [tryLock]: compare-and-swap of the lock word from 0 to 1. *)
Definition tryLock (l : gcCPULimiterState) : bool * gcCPULimiterState :=
  if lock l =? 0 then (true, set_lock 1 l) else (false, l).

(** [unlock]: swap the lock word to 0, throwing unless it was held. *)
Definition unlock (l : gcCPULimiterState) : result gcCPULimiterState :=
  let old := lock l in
  let l := set_lock 0 l in
  if negb (old =? 1) then Throw "double unlock" else Ok l.

Section WithBackgroundShare.

(** [mgc.go], which defines the floating-point constant
    [gcBackgroundUtilization], is not part of the sources at hand.  The
    value [int64(float64(w) * gcBackgroundUtilization)] is therefore taken
    as a parameter of the model; only its conversion to [int64] is used. *)
Variable backgroundTime : Z -> Z.

(** [updateLocked]. *)
Definition updateLocked (totalAssistTime now : Z) (l : gcCPULimiterState)
  : gcCPULimiterState :=
  let lastUpdate0 := lastUpdate l in
  if (now <? lastUpdate0) || (totalAssistTime <? lastTotalAssistTime l) then l
  else
    let windowTotalTime := i64 (i64 (now - lastUpdate0) * i64 (nprocs l)) in
    let l := set_lastUpdate now l in
    if negb (gcEnabled l) then accumulate windowTotalTime 0 l
    else
      let windowGCTime := i64 (totalAssistTime - lastTotalAssistTime l) in
      let windowGCTime :=
        i64 (windowGCTime + i64 (backgroundTime windowTotalTime)) in
      let l := accumulate (i64 (windowTotalTime - windowGCTime)) windowGCTime l in
      set_lastTotalAssistTime totalAssistTime l.

(** [update]. *)
Definition update (totalAssistTime now : Z) (l : gcCPULimiterState)
  : result gcCPULimiterState :=
  let '(ok, l) := tryLock l in
  if negb ok then Ok l
  else if transitioning l then Throw "update during transition"
  else unlock (updateLocked totalAssistTime now l).

(** [startGCTransition]. *)
Definition startGCTransition (enableGC : bool) (totalAssistTime now : Z)
  (l : gcCPULimiterState) : result gcCPULimiterState :=
  let '(ok, l) := tryLock l in
  if negb ok then Throw "failed to acquire lock to start a GC transition"
  else if Bool.eqb (gcEnabled l) enableGC
  then Throw "transitioning GC to the same state as before?"
  else
    let l := updateLocked totalAssistTime now l in
    if enableGC && negb (totalAssistTime =? 0)
    then Throw "assist time must be zero on entry to a GC cycle"
    else Ok (set_transitioning true (set_gcEnabled enableGC l)).

(** [resetCapacity]. *)
Definition resetCapacity (now nprocs0 : Z) (l : gcCPULimiterState)
  : result gcCPULimiterState :=
  let '(ok, l) := tryLock l in
  if negb ok then Throw "failed to acquire lock to reset capacity"
  else
    let l := updateLocked 0 now l in
    let l := set_nprocs nprocs0 l in
    let l := set_capacity (u64 (u64 nprocs0 * capacityPerProc)) l in
    let l :=
      if capacity l <? fill l
      then set_enabled true (set_fill (capacity l) l)
      else if fill l <? capacity l then set_enabled false l
      else l in
    unlock l.

End WithBackgroundShare.

(** [finishGCTransition]. *)
Definition finishGCTransition (now : Z) (l : gcCPULimiterState)
  : result gcCPULimiterState :=
  if negb (transitioning l)
  then Throw "finishGCTransition called without starting one?"
  else
    let lastUpdate0 := lastUpdate l in
    let l :=
      if lastUpdate0 <=? now
      then accumulate 0 (i64 (i64 (now - lastUpdate0) * i64 (nprocs l))) l
      else l in
    let l := set_lastUpdate now l in
    let l := set_transitioning false l in
    let l := set_lastTotalAssistTime 0 l in
    unlock l.

(** The states reached after each call of a sequence of [accumulate]
    calls, each call given as the pair [(mutatorTime, gcTime)]. *)
Fixpoint accumulate_trace (calls : list (Z * Z)) (l : gcCPULimiterState)
  : list gcCPULimiterState :=
  match calls with
  | [] => []
  | (mutatorTime, gcTime) :: rest =>
      let l' := accumulate mutatorTime gcTime l in
      l' :: accumulate_trace rest l'
  end.

(** The bucket bound documented on the [bucket] field. *)
Definition bucket_bound (l : gcCPULimiterState) : Prop :=
  0 <= fill l /\ fill l <= capacity l /\ capacity l < 18446744073709551616.

(** The flag mirrors a full bucket. *)
Definition enabled_iff_full (l : gcCPULimiterState) : Prop :=
  enabled l = true <-> fill l = capacity l.

(** *** Properties of [accumulate] *)

Lemma accumulate_capacity m g l : capacity (accumulate m g l) = capacity l.
Proof.
  unfold accumulate.
  repeat match goal with |- context [if ?b then _ else _] => destruct b end;
    reflexivity.
Qed.

(** On a bucket within its bounds the wrap-around arithmetic of
    [accumulate] is exact: the fill moves by [change] and is clamped to
    [[0, capacity]]; the flag is stored only on the two paths below. *)
Lemma accumulate_spec m g l :
  bucket_bound l ->
  let change := i64 (g - m) in
  fill (accumulate m g l) = Z.max 0 (Z.min (capacity l) (fill l + change)) /\
  enabled (accumulate m g l) =
    (if (0 <? change) && (capacity l - fill l <=? change) then
       if fill l =? capacity l then enabled l else true
     else if negb (change =? 0) && (fill l =? capacity l) then false
     else enabled l).
Proof.
  unfold bucket_bound, accumulate. intros (H0 & H1 & H2).
  pose proof (i64_range (g - m)) as Hc.
  set (change := i64 (g - m)) in *. cbv zeta.
  rewrite (u64_small (capacity l - fill l)) by lia.
  assert (Hfull : (capacity l - fill l =? 0) = (fill l =? capacity l)).
  { destruct (Z.eqb_spec (capacity l - fill l) 0),
      (Z.eqb_spec (fill l) (capacity l)); lia || reflexivity. }
  rewrite Hfull.
  destruct (Z.ltb_spec 0 change) as [Hpos | Hnpos]; cbn [andb].
  - rewrite (u64_small change) by lia.
    destruct (Z.leb_spec (capacity l - fill l) change) as [Hle | Hgt].
    + destruct (fill l =? capacity l); cbn; split; lia || reflexivity.
    + destruct (Z.ltb_spec change 0); [lia |]. cbn [andb].
      rewrite (i64_small (- change)) by lia.
      rewrite (u64_of_neg (- change)) by lia.
      assert (Hf : u64 (fill l - (- change + 18446744073709551616))
                   = fill l + change).
      { unfold u64. symmetry. apply (Z.mod_unique_pos _ _ (-1)); lia. }
      destruct (_ && _); cbn; rewrite Hf; split; lia || reflexivity.
  - destruct (Z.ltb_spec change 0) as [Hneg | Hz]; cbn [andb].
    + pose proof (i64_range (- change)) as Hn.
      assert (Hu : u64 (i64 (- change)) = - change).
      { destruct (Z.eq_dec change (- 9223372036854775808)) as [-> | Hne].
        - reflexivity.
        - rewrite i64_small by lia. rewrite u64_small by lia. lia. }
      rewrite Hu.
      destruct (Z.leb_spec (fill l) (- change)) as [Hle | Hgt].
      * destruct (_ && _); cbn; split; lia || reflexivity.
      * rewrite (u64_small (fill l - _)) by lia.
        destruct (_ && _); cbn; split; lia || reflexivity.
    + assert (change = 0) as -> by lia. cbn.
      rewrite Z.sub_0_r, u64_small by lia. cbn. split; lia || reflexivity.
Qed.

(** One call keeps the bucket within its bounds, whatever the flag is. *)
Lemma accumulate_bucket_bound m g l :
  bucket_bound l -> bucket_bound (accumulate m g l).
Proof.
  intros Hb. destruct (accumulate_spec m g l Hb) as [Hf _].
  unfold bucket_bound in *. rewrite accumulate_capacity, Hf. lia.
Qed.

(** With a non-zero capacity one call keeps the flag in step with the
    bucket being full. *)
Lemma accumulate_enabled_iff_full m g l :
  bucket_bound l -> 0 < capacity l ->
  enabled_iff_full l -> enabled_iff_full (accumulate m g l).
Proof.
  intros Hb Hcap He. destruct (accumulate_spec m g l Hb) as [Hf Hen].
  unfold enabled_iff_full, bucket_bound in *.
  rewrite accumulate_capacity, Hf, Hen. clear Hf Hen.
  set (change := i64 (g - m)).
  destruct (Z.ltb_spec 0 change), (Z.leb_spec (capacity l - fill l) change),
    (Z.eqb_spec change 0), (Z.eqb_spec (fill l) (capacity l)); cbn;
    try lia; try (split; intros; (lia || discriminate || reflexivity));
    try (rewrite He; lia).
Qed.

(** *** The bucket invariant along a sequence of calls *)

(** A limiter as [resetCapacity] leaves it for four processors, with the
    bucket half full. *)
Definition half_full : gcCPULimiterState :=
  mkLimiter 0 false 2000000000 4000000000 0 false false 0 0 4.

(** A bucket of capacity zero whose flag is set. *)
Definition zero_capacity : gcCPULimiterState :=
  mkLimiter 0 true 0 0 0 false false 0 0 0.

(** C2 (as amended): along every sequence of [accumulate] calls started
    from a bucket with [0 <= fill <= capacity] whose flag tells whether it
    is full, every state reached has [0 <= fill <= capacity], and, when
    the capacity is not zero, its flag is set exactly when
    [fill = capacity]. *)
Theorem accumulate_trace_invariant calls l :
  bucket_bound l -> enabled_iff_full l ->
  Forall (fun l' => bucket_bound l' /\ (0 < capacity l' -> enabled_iff_full l'))
         (accumulate_trace calls l).
Proof.
  intros Hb He.
  assert (He' : 0 < capacity l -> enabled_iff_full l) by (intros _; exact He).
  clear He. revert l Hb He'.
  induction calls as [| [m g] rest IH]; intros l Hb He; cbn [accumulate_trace].
  - constructor.
  - assert (Hb' : bucket_bound (accumulate m g l))
      by (apply accumulate_bucket_bound; exact Hb).
    assert (He' : 0 < capacity (accumulate m g l) ->
                  enabled_iff_full (accumulate m g l)).
    { rewrite accumulate_capacity. intros Hc.
      apply accumulate_enabled_iff_full; auto. }
    constructor; [split; assumption |]. apply IH; assumption.
Qed.

Lemma accumulate_trace_invariant_witness :
  Forall (fun l' => bucket_bound l' /\ (0 < capacity l' -> enabled_iff_full l'))
         (accumulate_trace [(0, 3000000000); (5, 0); (7000000000, 1)] half_full).
Proof.
  apply (accumulate_trace_invariant _ half_full).
  - unfold bucket_bound; cbn; lia.
  - unfold enabled_iff_full; cbn. split; [discriminate | lia].
Defined.

(** C2 (as stated) fails on a bucket of capacity zero: draining it clears
    the flag although [fill = capacity] still holds. *)
Lemma accumulate_zero_capacity_clears_flag :
  bucket_bound zero_capacity /\ enabled_iff_full zero_capacity /\
  Exists (fun l' => fill l' = capacity l' /\ enabled l' = false)
         (accumulate_trace [(1, 0)] zero_capacity).
Proof.
  split; [| split].
  - unfold bucket_bound; cbn; lia.
  - unfold enabled_iff_full; cbn. split; reflexivity.
  - constructor. split; reflexivity.
Qed.

(** *** [finishGCTransition] *)

(** The part of the state [accumulate] works on. *)
Definition bucket (l : gcCPULimiterState) : Z * Z * Z * bool :=
  (fill l, capacity l, overflow l, enabled l).

(** The whole window since the last update, on every processor, in
    [int64] arithmetic. *)
Definition stwTime (now : Z) (l : gcCPULimiterState) : Z :=
  i64 (i64 (now - lastUpdate l) * i64 (nprocs l)).

(** A transition in progress whose end is reported with a time stamp
    older than the last update. *)
Definition in_transition : gcCPULimiterState :=
  mkLimiter 1 false 100 4000000000 0 true true 0 10 4.

(** C7 (as amended): a call of [finishGCTransition] with the transition
    flag set and the lock held returns normally; afterwards [lastUpdate]
    is [now], [lastTotalAssistTime] is 0, the transition flag is cleared
    and the lock released.  When [now >= lastUpdate] the bucket is that of
    [accumulate] run with no mutator time and the collector time
    [(now - lastUpdate) * nprocs]; when [now < lastUpdate] the bucket is
    left as it was. *)
Theorem finishGCTransition_accounts_window now l :
  transitioning l = true -> lock l = 1 ->
  exists l',
    finishGCTransition now l = Ok l' /\
    lastUpdate l' = now /\ lastTotalAssistTime l' = 0 /\
    transitioning l' = false /\ lock l' = 0 /\
    (lastUpdate l <= now -> bucket l' = bucket (accumulate 0 (stwTime now l) l)) /\
    (now < lastUpdate l -> bucket l' = bucket l).
Proof.
  intros Ht Hl. unfold finishGCTransition, unlock, stwTime.
  rewrite Ht. cbn [negb].
  destruct (Z.leb_spec (lastUpdate l) now) as [Hle | Hlt].
  - assert (Hk : lock (accumulate 0 (i64 (i64 (now - lastUpdate l) * i64 (nprocs l))) l) = 1).
    { unfold accumulate.
      repeat match goal with |- context [if ?b then _ else _] => destruct b end;
        exact Hl. }
    cbn. rewrite Hk. cbn. eexists. split; [reflexivity |].
    cbn. repeat split; lia.
  - cbn. rewrite Hl. cbn. eexists. split; [reflexivity |].
    cbn. repeat split; lia.
Qed.

Lemma finishGCTransition_accounts_window_witness :
  exists l',
    finishGCTransition 25 in_transition = Ok l' /\
    lastUpdate l' = 25 /\ lastTotalAssistTime l' = 0 /\
    transitioning l' = false /\ lock l' = 0 /\
    (lastUpdate in_transition <= 25 ->
     bucket l' = bucket (accumulate 0 (stwTime 25 in_transition) in_transition)) /\
    (25 < lastUpdate in_transition -> bucket l' = bucket in_transition).
Proof.
  apply (finishGCTransition_accounts_window 25 in_transition); reflexivity.
Defined.

(** C7 (as stated) fails when [now] is older than [lastUpdate]: the call
    returns with the bucket untouched, whereas [accumulate] run on the
    window would have drained it. *)
Lemma finishGCTransition_skips_stale_window :
  transitioning in_transition = true /\ lock in_transition = 1 /\
  exists l',
    finishGCTransition 5 in_transition = Ok l' /\
    fill l' = 100 /\
    fill (accumulate 0 (stwTime 5 in_transition) in_transition) = 80.
Proof.
  split; [reflexivity |]. split; [reflexivity |].
  eexists. split; [reflexivity |]. split; reflexivity.
Qed.

(** *** [update] and [resetCapacity] *)

Section UpdateProperties.

Variable backgroundTime : Z -> Z.

Lemma unlock_after_tryLock l : lock l = 0 -> set_lock 0 (set_lock 1 l) = l.
Proof. destruct l; cbn; intros ->; reflexivity. Qed.

Lemma updateLocked_stale totalAssistTime now l :
  now < lastUpdate l \/ totalAssistTime < lastTotalAssistTime l ->
  updateLocked backgroundTime totalAssistTime now l = l.
Proof.
  intros H. unfold updateLocked.
  destruct (Z.ltb_spec now (lastUpdate l)),
    (Z.ltb_spec totalAssistTime (lastTotalAssistTime l)); cbn; reflexivity || lia.
Qed.

(** C6: a call of [update] that takes the lock outside a transition with
    a time stamp older than [lastUpdate], or an assist time below
    [lastTotalAssistTime], returns normally and leaves the limiter exactly
    as it was (the lock is released again). *)
Theorem update_stale_is_discarded totalAssistTime now l :
  lock l = 0 -> transitioning l = false ->
  now < lastUpdate l \/ totalAssistTime < lastTotalAssistTime l ->
  update backgroundTime totalAssistTime now l = Ok l.
Proof.
  intros Hl Ht Hstale. unfold update, tryLock. rewrite Hl. cbn.
  rewrite Ht. rewrite updateLocked_stale by exact Hstale.
  unfold unlock. cbn. f_equal. apply unlock_after_tryLock. exact Hl.
Qed.

(** What [resetCapacity] does establish: it returns normally when the
    lock is free, the capacity is the [uint64] product
    [nprocs * capacityPerProc], and the fill does not exceed it. *)
Lemma resetCapacity_capacity_and_clamp now nprocs0 l :
  lock l = 0 ->
  exists l',
    resetCapacity backgroundTime now nprocs0 l = Ok l' /\
    capacity l' = u64 (u64 nprocs0 * capacityPerProc) /\
    fill l' = Z.min (fill (updateLocked backgroundTime 0 now (set_lock 1 l)))
                    (capacity l') /\
    nprocs l' = nprocs0 /\ lock l' = 0.
Proof.
  intros Hl. unfold resetCapacity, tryLock. rewrite Hl. cbn [Z.eqb negb].
  set (l1 := updateLocked backgroundTime 0 now (set_lock 1 l)).
  assert (Hk : lock l1 = 1).
  { unfold l1, updateLocked, accumulate.
    repeat match goal with |- context [if ?b then _ else _] => destruct b end;
      reflexivity. }
  cbn.
  destruct (Z.ltb_spec (u64 (u64 nprocs0 * capacityPerProc)) (fill l1)).
  - unfold unlock. cbn. rewrite Hk. cbn. eexists. split; [reflexivity |].
    cbn. repeat split; lia.
  - destruct (Z.ltb_spec (fill l1) (u64 (u64 nprocs0 * capacityPerProc)));
      unfold unlock; cbn; rewrite Hk; cbn; eexists; (split; [reflexivity |]);
      cbn; repeat split; lia.
Qed.

End UpdateProperties.

(** A limiter for two processors, outside a collection cycle, with the
    fill just above half of the capacity and the flag clear. *)
Definition two_procs : gcCPULimiterState :=
  mkLimiter 0 false 1000002000 2000000000 0 false false 0 5000 2.

Lemma update_stale_is_discarded_witness :
  update (fun w => w / 4) 0 4000 two_procs = Ok two_procs.
Proof.
  apply (update_stale_is_discarded (fun w => w / 4) 0 4000 two_procs).
  - reflexivity.
  - reflexivity.
  - left. cbn. lia.
Defined.

(** C8 (the code at a failing input): [two_procs] satisfies the bucket
    invariant and its flag is right.  Resetting it to one processor a
    microsecond later drains the fill to exactly the new capacity; neither
    branch of [resetCapacity] stores the flag then, so the call ends with
    [fill = capacity] and the flag clear.  A following [accumulate] of
    collector time reads the bucket as already limiting and does not store
    the flag either. *)
Theorem resetCapacity_leaves_flag_on_equal_fill (backgroundTime : Z -> Z) :
  bucket_bound two_procs /\ enabled_iff_full two_procs /\
  exists l',
    resetCapacity backgroundTime 6000 1 two_procs = Ok l' /\
    capacity l' = 1000000000 /\ fill l' = capacity l' /\ enabled l' = false /\
    enabled (accumulate 0 5 l') = false.
Proof.
  split; [unfold bucket_bound; cbn; lia |].
  split; [unfold enabled_iff_full; cbn; split; [discriminate | lia] |].
  eexists. split; [reflexivity |]. repeat split.
Qed.

End Limiter.

(** ** crypto/elliptic/internal/nistec, P-521 *)
Module Nistec.

Import Stdlib.Init.Byte.

(** [const p521ElementLength = 66]. *)
Definition p521ElementLength : nat := 66.

Section WithField.

(** The field arithmetic of package [fiat] is not part of the sources at
    hand; its element type and the operations [SetBytes] uses are taken
    as parameters.  [feSetBytes] returns the decoded element or the error
    of [fiat.P521Element.SetBytes]; [feEqual] is the 0/1 result of
    [Equal]. *)
Variable P521Element : Type.
Variable feZero feOne : P521Element.
Variable feSetBytes : list byte -> P521Element + string.
Variable feSquare : P521Element -> P521Element.
Variable feMul feAdd feSub : P521Element -> P521Element -> P521Element.
Variable feEqual : P521Element -> P521Element -> Z.
Variable p521B : P521Element.

(** [P521Point], in projective coordinates. *)
Record P521Point : Type := mkPoint {
  x : P521Element;
  y : P521Element;
  z : P521Element
}.

(** What a call of a method with receiver [p] that returns a point
    pointer and an error leaves behind: the receiver, whether the
    returned pointer is [p] or [nil], and the error. *)
Record SetBytesResult : Type := mkResult {
  receiver : P521Point;
  returned : option P521Point;
  err : option string
}.

(** [NewP521Point]: the point at infinity. *)
Definition NewP521Point : P521Point := mkPoint feZero feOne feZero.

(** [Set]. *)
Definition Set_ (p q : P521Point) : P521Point := mkPoint (x q) (y q) (z q).

(** [p521CheckOnCurve]: [None] is the [nil] error. *)
Definition p521CheckOnCurve (x0 y0 : P521Element) : option string :=
  let x3 := feSquare x0 in
  let x3 := feMul x3 x0 in
  let threeX := feAdd x0 x0 in
  let threeX := feAdd threeX x0 in
  let x3 := feSub x3 threeX in
  let x3 := feAdd x3 p521B in
  let y2 := feSquare y0 in
  if negb (feEqual x3 y2 =? 1) then Some "P521 point not on curve"%string
  else None.

(** [b[0] == c], evaluated only behind a length test that makes the
    index valid. *)
Definition firstByteIs (b : list byte) (c : byte) : bool :=
  match b with
  | b0 :: _ => Byte.eqb b0 c
  | [] => false
  end.

(** [SetBytes]: the cases of the [switch] are tried in order. *)
Definition SetBytes (p : P521Point) (b : list byte) : SetBytesResult :=
  if Nat.eqb (length b) 1 && firstByteIs b x00 then
    let p := Set_ p NewP521Point in
    mkResult p (Some p) None
  else if Nat.eqb (length b) (1 + 2 * p521ElementLength) && firstByteIs b x04 then
    match feSetBytes (firstn p521ElementLength (skipn 1 b)) with
    | inr e => mkResult p None (Some e)
    | inl x0 =>
        match feSetBytes (skipn (1 + p521ElementLength) b) with
        | inr e => mkResult p None (Some e)
        | inl y0 =>
            match p521CheckOnCurve x0 y0 with
            | Some e => mkResult p None (Some e)
            | None =>
                let p := mkPoint x0 y0 feOne in
                mkResult p (Some p) None
            end
        end
    end
  else if Nat.eqb (length b) (1 + p521ElementLength) && firstByteIs b x00 then
    mkResult p None (Some "unimplemented"%string)
  else
    mkResult p None (Some "invalid P521 point encoding"%string).

(** C9: on every byte slice of the compressed form, that is of length
    [1 + 66] with the leading byte the compressed case of the [switch]
    tests for, [SetBytes] returns [nil] together with the fixed error
    "unimplemented", and the receiver is unchanged.  [SetBytes] is a total
    function: no input makes it panic. *)
Theorem SetBytes_compressed_unimplemented (p : P521Point) (b : list byte) :
  length b = (1 + p521ElementLength)%nat ->
  firstByteIs b x00 = true ->
  SetBytes p b = mkResult p None (Some "unimplemented"%string).
Proof.
  intros Hlen Hfirst. unfold SetBytes.
  rewrite Hlen, Hfirst. reflexivity.
Qed.

End WithField.

Arguments mkPoint {P521Element} _ _ _.
Arguments mkResult {P521Element} _ _ _.

(** A compressed-form input: a zero byte followed by 66 bytes. *)
Definition compressed_input : list byte := x00 :: repeat xff 66.

Lemma SetBytes_compressed_unimplemented_witness :
  SetBytes Z 0 1 (fun _ => inl 0) (fun a => a * a) Z.mul Z.add Z.sub
           (fun a b => if a =? b then 1 else 0) 3
           (mkPoint 5 6 1) compressed_input
  = mkResult (mkPoint 5 6 1) None (Some "unimplemented"%string).
Proof.
  apply (SetBytes_compressed_unimplemented Z 0 1 (fun _ => inl 0)
           (fun a => a * a) Z.mul Z.add Z.sub
           (fun a b => if a =? b then 1 else 0) 3
           (mkPoint 5 6 1) compressed_input).
  - reflexivity.
  - reflexivity.
Defined.

End Nistec.

(** ** internal/runtime/maps: the map, its small-map fast path and its
       directory *)
Module SwissMap.

(** *** The control word of a group *)

(** The file that declares [ctrl], [ctrlGroup], [bitset] and their
    methods (group.go) is missing from the sources.  The spec gives the
    group one control byte per slot, encoding empty, deleted, or occupied
    together with the 7-bit [h2], and match operations computed by
    parallel bit tricks that report no false negative.  The definitions
    of this part follow it on the 64-bit control word that
    [getWithKeySmall] reads byte by byte: slot [i] is byte [i] of the
    word, and an occupied byte holds [h2], so its top bit is clear. *)

(** Modelled from the spec: [ctrlEmpty] of the missing group.go, the
    control byte of an empty slot, [0b10000000]. *)
Definition ctrlEmpty : Z := 128.

(** Modelled from the spec: [ctrlDeleted] of the missing group.go, the
    tombstone, [0b11111110]. *)
Definition ctrlDeleted : Z := 254.

(** Modelled from the spec: [bitsetLSB] of the missing group.go, the low
    bit of every byte, [0x0101010101010101]. *)
Definition bitsetLSB : Z := 72340172838076673.

(** Modelled from the spec: [bitsetMSB] of the missing group.go, the top
    bit of every byte, [0x8080808080808080]. *)
Definition bitsetMSB : Z := 9259542123273814144.

(** Modelled from the spec: [bitsetEmpty] of the missing group.go, the
    control word of eight empty slots. *)
Definition bitsetEmpty : Z := u64 (bitsetLSB * ctrlEmpty).

(** The number of trailing zero bits of a positive number. *)
Fixpoint pos_ctz (p : positive) : Z :=
  match p with
  | xO q => 1 + pos_ctz q
  | _ => 0
  end.

(** Modelled from the spec: [sys.TrailingZeros64], missing from the
    sources; the number of trailing zero bits of a [uint64], 64 for
    zero. *)
Definition TrailingZeros64 (x : Z) : Z :=
  match u64 x with
  | Z.pos p => pos_ctz p
  | _ => 64
  end.

(** Modelled from the spec: [bitset.first] of the missing group.go, the
    slot of the lowest set bit of a match mask. *)
Definition first (b : Z) : Z := Z.shiftr (TrailingZeros64 b) 3.

(** Modelled from the spec: [bitset.removeFirst] of the missing
    group.go, which clears the lowest set bit. *)
Definition removeFirst (b : Z) : Z := Z.land b (u64 (b - 1)).

(** Modelled from the spec: [ctrlGroup.get] of the missing group.go, the
    control byte of slot [i]. *)
Definition ctrls_get (g i : Z) : Z := Z.land (Z.shiftr g (8 * i)) 255.

(** Modelled from the spec: [ctrlGroup.set] of the missing group.go,
    which stores the control byte [c] for slot [i]. *)
Definition ctrls_set (g i c : Z) : Z :=
  Z.lor (Z.ldiff g (Z.shiftl 255 (8 * i))) (Z.shiftl c (8 * i)).

(** Modelled from the spec: [ctrlGroup.setEmpty] of the missing
    group.go. *)
Definition ctrls_setEmpty : Z := bitsetEmpty.

(** Modelled from the spec: [ctrlGroup.matchH2] of the missing group.go.
    The result has one bit per slot, the top bit of the slot's byte.  A
    slot whose byte is [h] is always reported; an occupied slot with
    another byte may be reported as well, and the callers compare the
    keys. *)
Definition matchH2 (g h : Z) : Z :=
  let v := Z.lxor g (u64 (bitsetLSB * h)) in
  Z.land (Z.ldiff (u64 (v - bitsetLSB)) v) bitsetMSB.

(** Modelled from the spec: [ctrlGroup.matchEmpty] of the missing
    group.go: the slots whose byte has the top bit set and bit 1
    clear. *)
Definition matchEmpty (g : Z) : Z :=
  let v := g in
  Z.land (Z.ldiff v (u64 (Z.shiftl v 6))) bitsetMSB.

(** A [uint64] value. *)
Definition word64 (g : Z) : Prop := 0 <= g < 18446744073709551616.

(** Whether slot [i] is in the match mask [m]. *)
Definition inMatch (m i : Z) : bool := Z.testbit m (8 * i + 7).

(** The mask with the top bit of byte [i] set when [b_i] holds. *)
Definition bitAt (b : bool) (k : Z) : Z := if b then Z.shiftl 1 k else 0.

Definition mask8 (b0 b1 b2 b3 b4 b5 b6 b7 : bool) : Z :=
  Z.lor (bitAt b0 7) (Z.lor (bitAt b1 15) (Z.lor (bitAt b2 23)
  (Z.lor (bitAt b3 31) (Z.lor (bitAt b4 39) (Z.lor (bitAt b5 47)
  (Z.lor (bitAt b6 55) (bitAt b7 63))))))).

(** The slots of a group, [abi.SwissMapGroupSlots] of them. *)
Definition SwissMapGroupSlots : Z := 8.
Definition slotIndices : list Z := [0; 1; 2; 3; 4; 5; 6; 7].

(** The slots of a match mask, lowest first. *)
Definition candidates (m : Z) : list Z := List.filter (inMatch m) slotIndices.

(** The loop [for match != 0 { i := match.first(); ...; match =
    match.removeFirst() }] that looks for the first slot of the mask
    accepted by [p].  Each round clears one bit of a 64-bit mask, so 64
    rounds always suffice; [matchLoop_mask8] below shows that with this
    bound every slot of the mask is visited. *)
Fixpoint matchLoop (fuel : nat) (m : Z) (p : Z -> bool) : option Z :=
  match fuel with
  | O => None
  | S fuel' =>
      if m =? 0 then None
      else
        let i := first m in
        if p i then Some i else matchLoop fuel' (removeFirst m) p
  end.

(** [h1] and [h2]: the upper 57 and the lower 7 bits of a hash. *)
Definition h1 (h : Z) : Z := Z.shiftr h 7.
Definition h2 (h : Z) : Z := Z.land h 127.

(** The table layer (table.go) is missing from the sources.  A call that
    the map hands to a table is recorded as [ViaTable]; a call served by
    the code at hand returns [Small]. *)
Inductive dispatched (A : Type) : Type :=
| Small (a : A)
| ViaTable.
Arguments Small {A} a.
Arguments ViaTable {A}.

(** [goarch.PtrSize] on the 64-bit targets, where a hash and a control
    word both have 64 bits. *)
Definition PtrSize : Z := 8.

(** [depthToShift], in [uint8] arithmetic. *)
Definition depthToShift (depth : Z) : Z :=
  if PtrSize =? 4 then u8 (32 - depth) else u8 (64 - depth).

(** [1 << s] for a [uint8] shift count [s], as an [int]. *)
Definition intShl1 (s : Z) : Z := if s <? 64 then i64 (Z.shiftl 1 s) else 0.

(** *** Bytes and bits of a control word *)

(** Bit [j] of byte [i]. *)
Lemma ctrls_get_testbit g i j :
  0 <= i -> 0 <= j < 8 ->
  Z.testbit (ctrls_get g i) j = Z.testbit g (8 * i + j).
Proof.
  intros Hi Hj. unfold ctrls_get.
  rewrite Z.land_spec, Z.shiftr_spec by lia.
  change 255 with (Z.ones 8). rewrite Z.ones_spec_low by lia.
  rewrite andb_true_r. f_equal. lia.
Qed.

Lemma ctrls_get_range g i : 0 <= ctrls_get g i < 256.
Proof.
  unfold ctrls_get. change 255 with (Z.ones 8).
  rewrite Z.land_ones by lia. apply Z.mod_pos_bound. lia.
Qed.

Lemma ctrls_get_div g i : 0 <= i -> ctrls_get g i = (g / 2 ^ (8 * i)) mod 256.
Proof.
  intros Hi. unfold ctrls_get. change 255 with (Z.ones 8).
  rewrite Z.land_ones by lia. rewrite Z.shiftr_div_pow2 by lia. reflexivity.
Qed.

Lemma byte_testbit_high c n : 0 <= c < 256 -> 8 <= n -> Z.testbit c n = false.
Proof.
  intros Hc Hn. rewrite <- (Z.mod_small c (2 ^ 8)) by (cbn; lia).
  apply Z.mod_pow2_bits_high. lia.
Qed.

Lemma byte_full_iff c : 0 <= c < 256 -> Z.testbit c 7 = false <-> c < 128.
Proof.
  intros Hc. rewrite Z.testbit_false by lia. cbn.
  split; intros H; Z.div_mod_to_equations; lia.
Qed.

Lemma word64_of_bits a :
  0 <= a -> (forall n, 64 <= n -> Z.testbit a n = false) -> word64 a.
Proof.
  intros Ha Hb. unfold word64.
  assert (a = a mod 2 ^ 64) as E.
  { apply Z.bits_inj'. intros n Hn.
    destruct (Z.lt_ge_cases n 64).
    - rewrite Z.mod_pow2_bits_low by lia. reflexivity.
    - rewrite Z.mod_pow2_bits_high by lia. apply Hb. lia. }
  pose proof (Z.mod_pos_bound a (2 ^ 64)). change (2 ^ 64) with 18446744073709551616 in *.
  lia.
Qed.

Lemma word64_bits a n : word64 a -> 64 <= n -> Z.testbit a n = false.
Proof.
  intros Ha Hn. rewrite <- (Z.mod_small a (2 ^ 64)) by exact Ha.
  apply Z.mod_pow2_bits_high. lia.
Qed.

Lemma ctrls_get_set g i j c :
  0 <= i < 8 -> 0 <= j < 8 -> 0 <= c < 256 ->
  ctrls_get (ctrls_set g i c) j = if i =? j then c else ctrls_get g j.
Proof.
  intros Hi Hj Hc. apply Z.bits_inj'. intros n Hn.
  destruct (Z.lt_ge_cases n 8) as [Hlt | Hge].
  - rewrite ctrls_get_testbit by lia. unfold ctrls_set.
    rewrite Z.lor_spec, Z.ldiff_spec, !Z.shiftl_spec by lia.
    destruct (Z.eqb_spec i j) as [-> | Hne].
    + replace (8 * j + n - 8 * j) with n by lia.
      change 255 with (Z.ones 8). rewrite Z.ones_spec_low by lia.
      cbn. rewrite andb_false_r. reflexivity.
    + rewrite ctrls_get_testbit by lia.
      destruct (Z.lt_ge_cases j i).
      * rewrite !(Z.testbit_neg_r _ (8 * j + n - 8 * i)) by lia.
        cbn. rewrite andb_true_r, orb_false_r. reflexivity.
      * rewrite !(byte_testbit_high _ (8 * j + n - 8 * i)) by lia.
        cbn. rewrite andb_true_r, orb_false_r. reflexivity.
  - rewrite (byte_testbit_high (ctrls_get _ _)) by (auto using ctrls_get_range; lia).
    destruct (i =? j); symmetry; apply byte_testbit_high;
      auto using ctrls_get_range.
Qed.

Lemma ctrls_set_word64 g i c :
  word64 g -> 0 <= i < 8 -> 0 <= c < 256 -> word64 (ctrls_set g i c).
Proof.
  intros Hg Hi Hc. apply word64_of_bits.
  - unfold ctrls_set. apply Z.lor_nonneg. split.
    + apply Z.ldiff_nonneg. left. apply Hg.
    + apply Z.shiftl_nonneg. lia.
  - intros n Hn. unfold ctrls_set.
    rewrite Z.lor_spec, Z.ldiff_spec, !Z.shiftl_spec by lia.
    rewrite (word64_bits g n) by assumption.
    rewrite (byte_testbit_high c) by lia. reflexivity.
Qed.

Ltac slot_cases i :=
  let H := fresh in
  assert (H : i = 0 \/ i = 1 \/ i = 2 \/ i = 3 \/ i = 4 \/ i = 5 \/ i = 6 \/ i = 7) by lia;
  destruct H as [-> | [-> | [-> | [-> | [-> | [-> | [-> | ->]]]]]]].

Lemma bitsetMSB_bit i : 0 <= i < 8 -> Z.testbit bitsetMSB (8 * i + 7) = true.
Proof. intros Hi. slot_cases i; reflexivity. Qed.

Lemma u64_testbit a n : 0 <= n < 64 -> Z.testbit (u64 a) n = Z.testbit a n.
Proof. intros Hn. unfold u64. change 18446744073709551616 with (2 ^ 64). apply Z.mod_pow2_bits_low. lia. Qed.

Lemma matchEmpty_spec g i :
  0 <= i < 8 ->
  inMatch (matchEmpty g) i =
    Z.testbit (ctrls_get g i) 7 && negb (Z.testbit (ctrls_get g i) 1).
Proof.
  intros Hi. unfold inMatch, matchEmpty.
  rewrite Z.land_spec, Z.ldiff_spec, bitsetMSB_bit, andb_true_r by lia.
  rewrite u64_testbit, Z.shiftl_spec by lia.
  rewrite !ctrls_get_testbit by lia.
  repeat f_equal; lia.
Qed.

Lemma lxor_word64 a b : word64 a -> word64 b -> word64 (Z.lxor a b).
Proof.
  intros Ha Hb. apply word64_of_bits.
  - apply Z.lxor_nonneg. unfold word64 in *. lia.
  - intros n Hn. rewrite Z.lxor_spec, !word64_bits by assumption. reflexivity.
Qed.

Lemma ctrls_get_broadcast h i :
  0 <= i < 8 -> 0 <= h < 256 -> ctrls_get (u64 (bitsetLSB * h)) i = h.
Proof.
  intros Hi Hh. rewrite ctrls_get_div by lia. unfold u64, bitsetLSB.
  slot_cases i; cbn; Z.div_mod_to_equations; lia.
Qed.

Lemma ctrls_get_lxor a b i :
  ctrls_get (Z.lxor a b) i = Z.lxor (ctrls_get a i) (ctrls_get b i).
Proof.
  unfold ctrls_get. rewrite Z.shiftr_lxor.
  apply Z.bits_inj'. intros n Hn.
  rewrite Z.lxor_spec, !Z.land_spec, Z.lxor_spec.
  destruct (Z.testbit 255 n); rewrite ?andb_true_r, ?andb_false_r; reflexivity.
Qed.

(** No false negative. *)
Lemma matchH2_hit g h i :
  word64 g -> 0 <= i < 8 -> 0 <= h < 128 ->
  ctrls_get g i = h -> inMatch (matchH2 g h) i = true.
Proof.
  intros Hg Hi Hh Hc. unfold inMatch, matchH2.
  set (v := Z.lxor g (u64 (bitsetLSB * h))).
  assert (Hv : word64 v) by (apply lxor_word64; [exact Hg | apply u64_range]).
  assert (Hb : ctrls_get v i = 0).
  { unfold v. rewrite ctrls_get_lxor, ctrls_get_broadcast, Hc by lia.
    apply Z.lxor_nilpotent. }
  rewrite Z.land_spec, Z.ldiff_spec, bitsetMSB_bit, andb_true_r by lia.
  rewrite <- (ctrls_get_testbit v i 7), Hb by lia. cbn [negb].
  rewrite Z.bits_0, andb_true_r.
  rewrite ctrls_get_div in Hb by lia.
  apply Z.testbit_true; [lia |].
  unfold u64, bitsetLSB, word64 in *.
  slot_cases i; cbn in Hb |- *; Z.div_mod_to_equations; lia.
Qed.

(** A reported slot is a full one. *)
Lemma matchH2_full g h i :
  0 <= i < 8 -> 0 <= h < 128 ->
  inMatch (matchH2 g h) i = true -> ctrls_get g i < 128.
Proof.
  intros Hi Hh. unfold inMatch, matchH2.
  rewrite Z.land_spec, Z.ldiff_spec, bitsetMSB_bit, andb_true_r by lia.
  intros [_ Hn]%andb_true_iff. apply negb_true_iff in Hn.
  rewrite <- ctrls_get_testbit in Hn by lia.
  rewrite ctrls_get_lxor, ctrls_get_broadcast, Z.lxor_spec in Hn by lia.
  assert (Hh7 : Z.testbit h 7 = false).
  { apply Z.testbit_false; [lia |]. cbn. Z.div_mod_to_equations; lia. }
  rewrite Hh7, xorb_false_r in Hn.
  apply byte_full_iff; [apply ctrls_get_range | exact Hn].
Qed.

(** *** Match masks *)

Lemma bitAt_testbit b k n :
  0 <= k -> 0 <= n -> Z.testbit (bitAt b k) n = b && (n =? k).
Proof.
  intros Hk Hn. unfold bitAt. destruct b; cbn [andb].
  - rewrite Z.shiftl_1_l, Z.pow2_bits_eqb by lia. apply Z.eqb_sym.
  - apply Z.bits_0.
Qed.

Lemma land_bitsetMSB x :
  Z.land x bitsetMSB =
  mask8 (inMatch x 0) (inMatch x 1) (inMatch x 2) (inMatch x 3)
        (inMatch x 4) (inMatch x 5) (inMatch x 6) (inMatch x 7).
Proof.
  apply Z.bits_inj'. intros n Hn.
  rewrite Z.land_spec.
  change bitsetMSB with (mask8 true true true true true true true true).
  unfold mask8, inMatch. rewrite !Z.lor_spec, !bitAt_testbit by lia.
  cbn [andb Z.mul Z.add Pos.mul Pos.add].
  repeat match goal with
         | |- context [n =? ?k] => destruct (Z.eqb_spec n k); [subst n |]
         end;
    rewrite ?andb_true_r, ?andb_false_r, ?orb_false_r, ?orb_false_l;
    try reflexivity; try lia.
Qed.

(** A match mask has one of 256 values; on each of them the loop visits
    the candidate slots in order and stops on an empty mask, within its
    bound. *)
Lemma matchLoop_mask8 b0 b1 b2 b3 b4 b5 b6 b7 p :
  matchLoop 64 (mask8 b0 b1 b2 b3 b4 b5 b6 b7) p =
  List.find p (candidates (mask8 b0 b1 b2 b3 b4 b5 b6 b7)).
Proof.
  destruct b0, b1, b2, b3, b4, b5, b6, b7; reflexivity.
Qed.


Lemma first_candidates b0 b1 b2 b3 b4 b5 b6 b7 :
  let m := mask8 b0 b1 b2 b3 b4 b5 b6 b7 in
  match candidates m with
  | [] => m = 0
  | i :: _ => m <> 0 /\ first m = i
  end.
Proof.
  destruct b0, b1, b2, b3, b4, b5, b6, b7; cbn; try reflexivity;
    (split; [discriminate | reflexivity]).
Qed.


(** *** Lists *)
Lemma find_filter {A} (p q : A -> bool) l :
  List.find p (List.filter q l) = List.find (fun x => q x && p x) l.
Proof.
  induction l as [| a l IH]; cbn; [reflexivity |].
  destruct (q a); cbn; [destruct (p a) |]; auto.
Qed.

Lemma find_ext_in {A} (p q : A -> bool) l :
  (forall x, In x l -> p x = q x) -> List.find p l = List.find q l.
Proof.
  induction l as [| a l IH]; cbn; intros H; [reflexivity |].
  rewrite (H a) by auto. destruct (q a); auto.
Qed.

Lemma find_unique {A} (p : A -> bool) l i :
  In i l -> p i = true -> (forall j, In j l -> p j = true -> j = i) ->
  List.find p l = Some i.
Proof.
  intros Hin Hp Hu. destruct (List.find p l) as [j |] eqn:E.
  - apply List.find_some in E as [Hj Hpj]. f_equal. auto.
  - rewrite (List.find_none _ _ E i Hin) in Hp. discriminate.
Qed.

Lemma filter_length_ext_in {A} (p q : A -> bool) l :
  (forall x, In x l -> p x = q x) ->
  length (List.filter p l) = length (List.filter q l).
Proof.
  induction l as [| a l IH]; cbn; intros H; [reflexivity |].
  rewrite (H a) by auto. destruct (q a); cbn; rewrite IH; auto.
Qed.

Lemma filter_length_flip (p q : Z -> bool) l i :
  List.NoDup l -> In i l -> p i = false -> q i = true ->
  (forall j, In j l -> j <> i -> q j = p j) ->
  length (List.filter q l) = S (length (List.filter p l)).
Proof.
  induction l as [| a l IH]; cbn; intros Hnd Hin Hp Hq Hext; [contradiction |].
  apply List.NoDup_cons_iff in Hnd as [Hna Hnd].
  destruct (Z.eq_dec a i) as [-> | Hne].
  - rewrite Hp, Hq. cbn. f_equal. apply filter_length_ext_in.
    intros x Hx. apply Hext; [auto |]. intros ->. contradiction.
  - destruct Hin as [-> | Hin]; [contradiction |].
    rewrite (Hext a) by auto.
    destruct (p a); cbn; rewrite (IH Hnd Hin Hp Hq); auto.
Qed.

Lemma filter_length_lt {A} (p : A -> bool) l :
  (length (List.filter p l) < length l)%nat -> exists x, In x l /\ p x = false.
Proof.
  induction l as [| a l IH]; cbn; [lia |].
  destruct (p a) eqn:E; cbn; intros H.
  - destruct IH as (x & Hx & Hpx); [lia |]. eauto.
  - eauto.
Qed.

Lemma nth_insert {A} (l : list A) i j x d :
  (i < length l)%nat ->
  nth j (<[i := x]> l) d = if Nat.eqb i j then x else nth j l d.
Proof.
  intros Hi. rewrite !nth_lookup.
  destruct (Nat.eqb_spec i j) as [-> | Hne].
  - rewrite list_lookup_insert_eq by assumption. reflexivity.
  - rewrite list_lookup_insert_ne by assumption. reflexivity.
Qed.

Lemma slotIndices_In i : In i slotIndices <-> 0 <= i < 8.
Proof.
  unfold slotIndices. cbn. lia.
Qed.

Lemma slotIndices_NoDup : List.NoDup slotIndices.
Proof.
  unfold slotIndices.
  repeat (constructor; [cbn; lia |]). constructor.
Qed.

Section SmallMap.

(** The map is generic in its key and element types.  What the map type
    descriptor [abi.SwissMapType] supplies is taken as parameters: the
    zeroed key and element ([typedmemclr]), the hash function
    [typ.Hasher], the key equality [typ.Key.Equal] and the flag
    [typ.NeedKeyUpdate()]. *)
Variables K V : Type.
Variable zeroK : K.
Variable zeroV : V.
Variable hasher : K -> Z -> Z.
Variable keyEqual : K -> K -> bool.
Variable needKeyUpdate : bool.

(** A group: the control word and the eight key and element slots. *)
Record group : Type := mkGroup {
  ctrls : Z;
  slotKeys : list K;
  slotElems : list V
}.

(** [g.key(i)] and [g.elem(i)]: the contents of slot [i]. *)
Definition key (g : group) (i : Z) : K := nth (Z.to_nat i) (slotKeys g) zeroK.
Definition elem (g : group) (i : Z) : V := nth (Z.to_nat i) (slotElems g) zeroV.

Definition set_ctrls (c : Z) (g : group) : group :=
  mkGroup c (slotKeys g) (slotElems g).
Definition set_key (i : Z) (k : K) (g : group) : group :=
  mkGroup (ctrls g) (<[Z.to_nat i := k]> (slotKeys g)) (slotElems g).
Definition set_elem (i : Z) (v : V) (g : group) : group :=
  mkGroup (ctrls g) (slotKeys g) (<[Z.to_nat i := v]> (slotElems g)).

(** [Map].  [dirPtr] points to a single group while [dirLen] is 0 and to
    the array of table pointers otherwise; the model keeps both targets,
    [smallGroup] and [directory], and [dirLen] tells which one is live.
    A table pointer is a [nat], a key of the heap of tables. *)
Record Map : Type := mkMap {
  used : Z;          (* uint64 *)
  seed : Z;          (* uintptr *)
  smallGroup : group;
  directory : list nat;
  dirLen : Z;        (* int *)
  globalDepth : Z;   (* uint8 *)
  globalShift : Z;   (* uint8 *)
  clearSeq : Z       (* uint64 *)
}.

Definition set_used (u : Z) (m : Map) : Map :=
  mkMap u (seed m) (smallGroup m) (directory m) (dirLen m) (globalDepth m)
        (globalShift m) (clearSeq m).
Definition set_smallGroup (g : group) (m : Map) : Map :=
  mkMap (used m) (seed m) g (directory m) (dirLen m) (globalDepth m)
        (globalShift m) (clearSeq m).
Definition set_clearSeq (c : Z) (m : Map) : Map :=
  mkMap (used m) (seed m) (smallGroup m) (directory m) (dirLen m)
        (globalDepth m) (globalShift m) c.
Definition set_directory (d : list nat) (m : Map) : Map :=
  mkMap (used m) (seed m) (smallGroup m) d (dirLen m) (globalDepth m)
        (globalShift m) (clearSeq m).

(** [NewMap].  A capacity above one group builds tables and is left to
    the table layer.  Otherwise the capacity is one group, the directory
    size rounds to 1 and the depth is 0; one zeroed group is allocated and
    its control word set empty. *)
Definition NewMap (capacity : Z) : dispatched Map :=
  let capacity :=
    if capacity <? SwissMapGroupSlots then SwissMapGroupSlots else capacity in
  if SwissMapGroupSlots <? capacity then ViaTable
  else
    let grp := mkGroup 0 (replicate 8 zeroK) (replicate 8 zeroV) in
    let grp := set_ctrls ctrls_setEmpty grp in
    Small (mkMap 0 0 grp [] 0 0 (depthToShift 0) 0).

(** [Used]. *)
Definition Used (m : Map) : Z := used m.

(** The loop of [getWithKeySmall]: [n] slots remain, starting at slot
    [i], and [ctrls0] is the control word shifted down to it. *)
Fixpoint getWithKeySmall_loop (n : nat) (i ctrls0 h : Z) (g : group) (key0 : K)
  : option (K * V) :=
  match n with
  | O => None
  | S n' =>
      let c := u8 ctrls0 in
      let ctrls1 := Z.shiftr ctrls0 8 in
      if negb (c =? h) then getWithKeySmall_loop n' (i + 1) ctrls1 h g key0
      else
        let slotKey := key g i in
        if keyEqual key0 slotKey then Some (slotKey, elem g i)
        else getWithKeySmall_loop n' (i + 1) ctrls1 h g key0
  end.

(** [getWithKeySmall]: the key and the element of the slot found, or
    [None] for [(nil, nil, false)]. *)
Definition getWithKeySmall (m : Map) (hash : Z) (key0 : K) : option (K * V) :=
  let g := smallGroup m in
  getWithKeySmall_loop 8 0 (ctrls g) (u8 (h2 hash)) g key0.

(** [getWithoutKey] and [Get]. *)
Definition getWithoutKey (m : Map) (key0 : K) : dispatched (option V) :=
  let hash := hasher key0 (seed m) in
  if dirLen m =? 0 then Small (snd <$> getWithKeySmall m hash key0)
  else ViaTable.

Definition Get (m : Map) (key0 : K) : dispatched (option V) :=
  getWithoutKey m key0.

(** [putSlotSmall]: the map after the call and the slot whose element
    pointer is returned. *)
Definition putSlotSmall (m : Map) (hash : Z) (key0 : K) : result (Map * Z) :=
  let g := smallGroup m in
  match matchLoop 64 (matchH2 (ctrls g) (h2 hash))
                  (fun i => keyEqual key0 (key g i)) with
  | Some i =>
      let g := if needKeyUpdate then set_key i key0 g else g in
      Ok (set_smallGroup g m, i)
  | None =>
      let match_ := matchEmpty (ctrls g) in
      if match_ =? 0 then Throw "small map with no empty slot"
      else
        let i := first match_ in
        let g := set_key i key0 g in
        let g := set_ctrls (ctrls_set (ctrls g) i (u8 (h2 hash))) g in
        Ok (set_used (u64 (used m + 1)) (set_smallGroup g m), i)
  end.

(** [PutSlot]: a full small map grows into a table and the call goes on
    in the table layer. *)
Definition PutSlot (m : Map) (key0 : K) : result (dispatched (Map * Z)) :=
  let hash := hasher key0 (seed m) in
  if dirLen m =? 0 then
    if used m <? SwissMapGroupSlots then
      match putSlotSmall m hash key0 with
      | Ok r => Ok (Small r)
      | Throw msg => Throw msg
      end
    else Ok ViaTable
  else Ok ViaTable.

(** [Put]: [PutSlot], then the element is moved into the slot. *)
Definition Put (m : Map) (key0 : K) (elem0 : V) : result (dispatched Map) :=
  match PutSlot m key0 with
  | Ok (Small (m, slotElem)) =>
      Ok (Small (set_smallGroup (set_elem slotElem elem0 (smallGroup m)) m))
  | Ok ViaTable => Ok ViaTable
  | Throw msg => Throw msg
  end.

(** [deleteSmall]. *)
Definition deleteSmall (m : Map) (hash : Z) (key0 : K) : Map :=
  let g := smallGroup m in
  match matchLoop 64 (matchH2 (ctrls g) (h2 hash))
                  (fun i => keyEqual key0 (key g i)) with
  | Some i =>
      let m := set_used (u64 (used m - 1)) m in
      let g := set_key i zeroK g in
      let g := set_elem i zeroV g in
      let g := set_ctrls (ctrls_set (ctrls g) i ctrlEmpty) g in
      set_smallGroup g m
  | None => m
  end.

(** [Delete]. *)
Definition Delete (m : Map) (key0 : K) : dispatched Map :=
  let hash := hasher key0 (seed m) in
  if dirLen m =? 0 then Small (deleteSmall m hash key0)
  else ViaTable.

(** [clearSmall]. *)
Definition clearSmall (m : Map) : Map :=
  let g := mkGroup 0 (replicate 8 zeroK) (replicate 8 zeroV) in
  let g := set_ctrls ctrls_setEmpty g in
  let m := set_smallGroup g m in
  let m := set_used 0 m in
  set_clearSeq (u64 (clearSeq m + 1)) m.

(** [Clear]. *)
Definition Clear (m : Map) : dispatched Map :=
  if dirLen m =? 0 then Small (clearSmall m) else ViaTable.

(** *** Sequences of operations *)

Inductive op : Type :=
| OpPut (k : K) (v : V)
| OpPutSlot (k : K)
| OpDelete (k : K)
| OpClear.

Definition applyOp (o : op) (m : Map) : result (dispatched Map) :=
  match o with
  | OpPut k v => Put m k v
  | OpPutSlot k =>
      match PutSlot m k with
      | Ok (Small (m', _)) => Ok (Small m')
      | Ok ViaTable => Ok ViaTable
      | Throw msg => Throw msg
      end
  | OpDelete k => Ok (Delete m k)
  | OpClear => Ok (Clear m)
  end.

(** The map after a sequence of operations, as long as the map stays on
    the small-map path. *)
Fixpoint runOps (ops : list op) (m : Map) : result (dispatched Map) :=
  match ops with
  | [] => Ok (Small m)
  | o :: rest =>
      match applyOp o m with
      | Ok (Small m') => runOps rest m'
      | r => r
      end
  end.

(** *** The directory *)

(** Modelled from the spec: the type [table] is declared in table.go,
    which is missing from the sources.  Of a table the map code reads and
    writes [index], its first directory position, and [localDepth], the
    number of hash bits that select it. *)
Record table : Type := mkTable {
  index : Z;       (* int *)
  localDepth : Z   (* uint8 *)
}.

Definition set_index (i : Z) (t : table) : table := mkTable i (localDepth t).

(** The [nil] table pointer, the content of a fresh array. *)
Definition nilTable : nat := 0%nat.

(** Reading and writing an array of table pointers at an index.  Outside
    of the array both are faults of the program (an access through
    [unsafe.Pointer] beyond the array, or a slice index out of range):
    [None]. *)
Definition lookupZ (d : list nat) (i : Z) : option nat :=
  if 0 <=? i then d !! Z.to_nat i else None.

Definition storeZ (d : list nat) (i : Z) (t : nat) : option (list nat) :=
  if (0 <=? i) && (i <? Z.of_nat (length d)) then Some (<[Z.to_nat i := t]> d)
  else None.

(** [directoryIndex]. *)
Definition directoryIndex (m : Map) (hash : Z) : Z :=
  if dirLen m =? 1 then 0
  else Z.shiftr hash (Z.land (globalShift m) 63).

(** [directoryAt] and [directorySet]. *)
Definition directoryAt (m : Map) (i : Z) : option nat := lookupZ (directory m) i.

Definition directorySet (m : Map) (i : Z) (nt : nat) : option Map :=
  d ← storeZ (directory m) i nt; Some (set_directory d m).

(** [replaceTable]: the loop [for i := 0; i < entries; i++], with [n]
    rounds left, and the method.  The tables live in the heap [h]; a
    missing table is a [nil] dereference. *)
Fixpoint replaceTable_loop (n : nat) (i : Z) (nt : nat) (ntIndex : Z) (m : Map)
  : option Map :=
  match n with
  | O => Some m
  | S n' =>
      m ← directorySet m (i64 (ntIndex + i)) nt;
      replaceTable_loop n' (i + 1) nt ntIndex m
  end.

Definition replaceTable (m : Map) (h : gmap nat table) (nt : nat) : option Map :=
  t ← h !! nt;
  let entries := intShl1 (u8 (globalDepth m - localDepth t)) in
  replaceTable_loop (Z.to_nat entries) 0 nt (index t) m.

(** The loop [for i := range m.dirLen] of [installTableSplit], which
    copies every directory entry twice and moves the index of each table
    the first time the table is met. *)
Fixpoint growDirectory_loop (n : nat) (i : Z) (m : Map) (newDir : list nat)
  (h : gmap nat table) : option (list nat * gmap nat table) :=
  match n with
  | O => Some (newDir, h)
  | S n' =>
      t ← directoryAt m i;
      newDir ← storeZ newDir (i64 (2 * i)) t;
      newDir ← storeZ newDir (i64 (i64 (2 * i) + 1)) t;
      tt ← h !! t;
      let h := if index tt =? i then <[t := set_index (i64 (2 * i)) tt]> h else h in
      growDirectory_loop n' (i + 1) m newDir h
  end.

(** The body of [if old.localDepth == m.globalDepth] in
    [installTableSplit].  [make] panics on a negative length and
    [&newDir[0]] on an empty slice. *)
Definition growDirectory (m : Map) (h : gmap nat table)
  : option (Map * gmap nat table) :=
  let n := i64 (dirLen m * 2) in
  if n <? 0 then None
  else
    '(newDir, h) ← growDirectory_loop (Z.to_nat (dirLen m)) 0 m
                     (replicate (Z.to_nat n) nilTable) h;
    match newDir with
    | [] => None
    | _ :: _ =>
        Some (mkMap (used m) (seed m) (smallGroup m) newDir
                    (Z.of_nat (length newDir)) (u8 (globalDepth m + 1))
                    (u8 (globalShift m - 1)) (clearSeq m), h)
    end.

(** The statements of [installTableSplit] after the [if]. *)
Definition installTables (m : Map) (h : gmap nat table) (old left right : nat)
  : option (Map * gmap nat table) :=
  o ← h !! old;
  l ← h !! left;
  let h := <[left := set_index (index o) l]> h in
  m ← replaceTable m h left;
  l ← h !! left;
  let entries := intShl1 (u8 (globalDepth m - localDepth l)) in
  r ← h !! right;
  let h := <[right := set_index (i64 (index l + entries)) r]> h in
  m ← replaceTable m h right;
  Some (m, h).

(** [installTableSplit]. *)
Definition installTableSplit (m : Map) (h : gmap nat table) (old left right : nat)
  : option (Map * gmap nat table) :=
  o ← h !! old;
  '(m, h) ← (if localDepth o =? globalDepth m then growDirectory m h
             else Some (m, h));
  installTables m h old left right.

(** *** Invariants *)

(** No control byte is the tombstone marker. *)
Definition noTombstone (g : group) : Prop :=
  forall i, 0 <= i < 8 -> ctrls_get (ctrls g) i <> ctrlDeleted.

(** A slot is occupied when its control byte has the top bit clear. *)
Definition occupied (g : group) (i : Z) : bool := ctrls_get (ctrls g) i <? 128.

(** The small-map invariant stated on [Map.dirPtr]: small maps never have
    deleted slots, so every control byte is empty or occupied, and [used]
    counts the occupied slots of the group. *)
Definition emptyOrOccupied (g : group) : Prop :=
  forall i, 0 <= i < 8 ->
    ctrls_get (ctrls g) i = ctrlEmpty \/ occupied g i = true.

Definition usedCountsOccupied (m : Map) : Prop :=
  used m = Z.of_nat (length (List.filter (occupied (smallGroup m)) slotIndices)).

(** The representation invariant of a small map: besides the above, an
    occupied slot carries the [h2] of its key and no key occupies two
    slots. *)
Record smallInv (m : Map) : Prop := mkSmallInv {
  inv_dirLen : dirLen m = 0;
  inv_word : word64 (ctrls (smallGroup m));
  inv_keys : length (slotKeys (smallGroup m)) = 8%nat;
  inv_elems : length (slotElems (smallGroup m)) = 8%nat;
  inv_ctrl : forall i, 0 <= i < 8 ->
    ctrls_get (ctrls (smallGroup m)) i = ctrlEmpty \/
    ctrls_get (ctrls (smallGroup m)) i
      = h2 (hasher (key (smallGroup m) i) (seed m));
  inv_distinct : forall i j, 0 <= i < 8 -> 0 <= j < 8 ->
    occupied (smallGroup m) i = true -> occupied (smallGroup m) j = true ->
    key (smallGroup m) i = key (smallGroup m) j -> i = j;
  inv_used : usedCountsOccupied m
}.

(** The map a small map stands for: the slot that holds [k], and the
    element stored with it. *)
Definition slotOf (m : Map) (k : K) : option Z :=
  List.find (fun i => occupied (smallGroup m) i && keyEqual k (key (smallGroup m) i))
            slotIndices.

Definition lookup (m : Map) (k : K) : option V :=
  elem (smallGroup m) <$> slotOf m k.

(** The directory invariants of the map: the directory has
    [1 << globalDepth] entries, every entry points to a table, and the
    entries that point to a table [t] are exactly the
    [1 << (globalDepth - t.localDepth)] ones from [t.index] on.  The
    depth leaves room for the directory to double within an [int]. *)
Record dirInv (m : Map) (h : gmap nat table) : Prop := mkDirInv {
  di_depth : 0 <= globalDepth m < 62;
  di_dirLen : dirLen m = 2 ^ globalDepth m;
  di_length : Z.of_nat (length (directory m)) = dirLen m;
  di_tables : forall i t, directoryAt m i = Some t ->
    exists tt, h !! t = Some tt /\ 0 <= localDepth tt <= globalDepth m /\
      forall j, directoryAt m j = Some t <->
                index tt <= j < index tt + 2 ^ (globalDepth m - localDepth tt)
}.

(** The slots [i], [i + 1], ... of the loop of [getWithKeySmall]. *)
Fixpoint slotsFrom (i : Z) (n : nat) : list Z :=
  match n with
  | O => []
  | S n' => i :: slotsFrom (i + 1) n'
  end.


(** *** The probe loop on match masks *)


Lemma matchH2_loop g h p :
  matchLoop 64 (matchH2 g h) p = List.find p (candidates (matchH2 g h)).
Proof. unfold matchH2. rewrite land_bitsetMSB. apply matchLoop_mask8. Qed.

Lemma matchH2_loop_slot g h p i :
  matchLoop 64 (matchH2 g h) p = Some i ->
  0 <= i < 8 /\ inMatch (matchH2 g h) i = true /\ p i = true.
Proof.
  rewrite matchH2_loop. intros [Hin Hp]%List.find_some.
  apply List.filter_In in Hin as [Hin Hm].
  apply slotIndices_In in Hin. auto.
Qed.

Lemma mask_first x :
  Z.land x bitsetMSB <> 0 ->
  0 <= first (Z.land x bitsetMSB) < 8 /\
  inMatch (Z.land x bitsetMSB) (first (Z.land x bitsetMSB)) = true.
Proof.
  rewrite land_bitsetMSB.
  match goal with |- context [mask8 ?a ?b ?c ?d ?e ?f ?g ?h] =>
    pose proof (first_candidates a b c d e f g h) as H;
    set (m := mask8 a b c d e f g h) in *
  end.
  cbv zeta in H. destruct (candidates m) as [| i rest] eqn:E.
  - intros Hne. contradiction.
  - intros _. destruct H as [_ Hf].
    assert (Hin : In i (candidates m)) by (rewrite E; left; reflexivity).
    apply List.filter_In in Hin as [Hin Hm]. apply slotIndices_In in Hin.
    rewrite Hf. split; assumption.
Qed.

Lemma matchEmpty_first g :
  matchEmpty g <> 0 ->
  0 <= first (matchEmpty g) < 8 /\
  inMatch (matchEmpty g) (first (matchEmpty g)) = true.
Proof. unfold matchEmpty. apply mask_first. Qed.

Lemma h2_range h : 0 <= h2 h < 128.
Proof.
  unfold h2. change 127 with (Z.ones 7). rewrite Z.land_ones by lia.
  apply Z.mod_pos_bound. lia.
Qed.

Lemma u8_h2 h : u8 (h2 h) = h2 h.
Proof. unfold u8. apply Z.mod_small. pose proof (h2_range h). lia. Qed.

Lemma ctrls_get_setEmpty i : 0 <= i < 8 -> ctrls_get ctrls_setEmpty i = ctrlEmpty.
Proof. intros Hi. slot_cases i; reflexivity. Qed.

Lemma putSlotSmall_noTombstone m hash k m' i :
  noTombstone (smallGroup m) ->
  putSlotSmall m hash k = Ok (m', i) ->
  noTombstone (smallGroup m') /\ dirLen m' = dirLen m /\ 0 <= i < 8.
Proof.
  intros Hnt. unfold putSlotSmall.
  destruct (matchLoop 64 _ _) as [j |] eqn:Hloop.
  - apply matchH2_loop_slot in Hloop as (Hj & _ & _).
    intros [= <- <-]. split; [| split; [reflexivity | exact Hj]].
    destruct needKeyUpdate; exact Hnt.
  - destruct (Z.eqb_spec (matchEmpty (ctrls (smallGroup m))) 0) as [| Hne];
      [discriminate |].
    intros [= <- <-].
    destruct (matchEmpty_first _ Hne) as [Hi _].
    split; [| split; [reflexivity | exact Hi]].
    intros j Hj. cbn. rewrite ctrls_get_set, u8_h2 by (rewrite ?u8_h2; pose proof (h2_range hash); lia).
    destruct (_ =? j).
    + pose proof (h2_range hash). unfold ctrlDeleted. lia.
    + apply Hnt. exact Hj.
Qed.

Lemma deleteSmall_noTombstone m hash k :
  noTombstone (smallGroup m) ->
  noTombstone (smallGroup (deleteSmall m hash k)) /\
  dirLen (deleteSmall m hash k) = dirLen m.
Proof.
  intros Hnt. unfold deleteSmall.
  destruct (matchLoop 64 _ _) as [i |] eqn:Hloop; [| auto].
  apply matchH2_loop_slot in Hloop as (Hi & _ & _).
  split; [| reflexivity].
  intros j Hj. cbn. rewrite ctrls_get_set by (unfold ctrlEmpty; lia).
  destruct (_ =? j); [discriminate | apply Hnt; exact Hj].
Qed.

(** [deleteSmall] marks the slot it clears empty, not deleted. *)
Lemma deleteSmall_marks_slot_empty m hash k i :
  matchLoop 64 (matchH2 (ctrls (smallGroup m)) (h2 hash))
            (fun i => keyEqual k (key (smallGroup m) i)) = Some i ->
  ctrls_get (ctrls (smallGroup (deleteSmall m hash k))) i = ctrlEmpty /\
  used (deleteSmall m hash k) = u64 (used m - 1).
Proof.
  intros Hloop. unfold deleteSmall. rewrite Hloop.
  apply matchH2_loop_slot in Hloop as (Hi & _ & _).
  split; [| reflexivity].
  cbn. rewrite ctrls_get_set, Z.eqb_refl by (unfold ctrlEmpty; lia).
  reflexivity.
Qed.

Lemma clearSmall_noTombstone m :
  noTombstone (smallGroup (clearSmall m)) /\ dirLen (clearSmall m) = dirLen m.
Proof.
  split; [| reflexivity]. intros j Hj. cbn.
  rewrite ctrls_get_setEmpty by exact Hj. discriminate.
Qed.

Lemma applyOp_noTombstone o m m' :
  dirLen m = 0 -> noTombstone (smallGroup m) ->
  applyOp o m = Ok (Small m') ->
  dirLen m' = 0 /\ noTombstone (smallGroup m').
Proof.
  intros Hd Hnt. destruct o as [k v | k | k |]; cbn.
  - unfold Put, PutSlot. rewrite Hd. cbn.
    destruct (used m <? SwissMapGroupSlots); [| discriminate].
    destruct (putSlotSmall m _ k) as [[m1 i] |] eqn:Hp; [| discriminate].
    intros [= <-].
    destruct (putSlotSmall_noTombstone _ _ _ _ _ Hnt Hp) as (Hnt1 & Hd1 & _).
    split; [cbn; congruence | exact Hnt1].
  - unfold PutSlot. rewrite Hd. cbn.
    destruct (used m <? SwissMapGroupSlots); [| discriminate].
    destruct (putSlotSmall m _ k) as [[m1 i] |] eqn:Hp; [| discriminate].
    intros [= <-].
    destruct (putSlotSmall_noTombstone _ _ _ _ _ Hnt Hp) as (Hnt1 & Hd1 & _).
    split; [congruence | exact Hnt1].
  - unfold Delete. rewrite Hd. cbn. intros [= <-].
    destruct (deleteSmall_noTombstone m (hasher k (seed m)) k Hnt) as [H1 H2].
    split; [congruence | exact H1].
  - unfold Clear. rewrite Hd. cbn. intros [= <-].
    destruct (clearSmall_noTombstone m) as [H1 H2].
    split; [congruence | exact H1].
Qed.

Lemma runOps_noTombstone ops m m' :
  dirLen m = 0 -> noTombstone (smallGroup m) ->
  runOps ops m = Ok (Small m') ->
  dirLen m' = 0 /\ noTombstone (smallGroup m').
Proof.
  revert m. induction ops as [| o rest IH]; cbn; intros m Hd Hnt.
  - intros [= <-]. auto.
  - destruct (applyOp o m) as [[m1 |] |] eqn:Ho; try discriminate.
    destruct (applyOp_noTombstone _ _ _ Hd Hnt Ho) as [Hd1 Hnt1].
    apply IH; assumption.
Qed.

Lemma NewMap_small capacity m :
  NewMap capacity = Small m ->
  dirLen m = 0 /\ used m = 0 /\
  smallGroup m = mkGroup ctrls_setEmpty (replicate 8 zeroK) (replicate 8 zeroV).
Proof.
  unfold NewMap.
  destruct (SwissMapGroupSlots <? _); [discriminate |].
  intros [= <-]. auto.
Qed.

(** C3: a map built by [NewMap] on the small-map path has no tombstone
    among the control bytes of its group after any sequence of [Put],
    [PutSlot], [Delete] and [Clear] calls that leaves it on that path:
    [deleteSmall] marks the slot empty, [putSlotSmall] writes the [h2] of
    the key, [clearSmall] sets the whole word empty. *)
Theorem small_map_never_has_tombstones capacity ops m0 m :
  NewMap capacity = Small m0 ->
  runOps ops m0 = Ok (Small m) ->
  dirLen m = 0 /\ noTombstone (smallGroup m).
Proof.
  intros Hnew Hrun.
  destruct (NewMap_small _ _ Hnew) as (Hd & _ & Hg).
  apply (runOps_noTombstone ops m0); [exact Hd | | exact Hrun].
  rewrite Hg. intros i Hi. cbn. rewrite ctrls_get_setEmpty by exact Hi.
  discriminate.
Qed.

(** *** Empty slots *)


Lemma inMatch_nonzero m i : inMatch m i = true -> m <> 0.
Proof. unfold inMatch. intros H ->. rewrite Z.bits_0 in H. discriminate. Qed.

Lemma matchEmpty_hit g i :
  0 <= i < 8 -> ctrls_get g i = ctrlEmpty -> inMatch (matchEmpty g) i = true.
Proof. intros Hi Hc. rewrite matchEmpty_spec, Hc by exact Hi. reflexivity. Qed.

Lemma matchEmpty_only_empty g i :
  0 <= i < 8 -> inMatch (matchEmpty g) i = true -> 128 <= ctrls_get g i.
Proof.
  intros Hi. rewrite matchEmpty_spec by exact Hi.
  intros [H7 _]%andb_true_iff.
  pose proof (ctrls_get_range g i) as Hr.
  destruct (Z.lt_ge_cases (ctrls_get g i) 128) as [Hlt | Hge]; [| exact Hge].
  apply (byte_full_iff _ Hr) in Hlt. congruence.
Qed.

(** A group with fewer than eight occupied slots and no deleted one has
    an empty slot, which [matchEmpty] reports. *)
Lemma matchEmpty_nonzero m :
  emptyOrOccupied (smallGroup m) ->
  usedCountsOccupied m ->
  used m < SwissMapGroupSlots ->
  matchEmpty (ctrls (smallGroup m)) <> 0.
Proof.
  intros Hv Hu Hlt.
  destruct (filter_length_lt (occupied (smallGroup m)) slotIndices)
    as (i & Hi & Ho).
  - unfold usedCountsOccupied, SwissMapGroupSlots in *. cbn [length slotIndices]. lia.
  - apply slotIndices_In in Hi.
    destruct (Hv i Hi) as [He | Hocc]; [| congruence].
    apply (inMatch_nonzero _ i). apply matchEmpty_hit; assumption.
Qed.

(** C4: in [putSlotSmall], when [used < 8] and the small-map invariant
    holds (every control byte of the group is empty or occupied, and
    [used] is the number of occupied ones), the [matchEmpty] mask is not
    zero and the call returns normally: the branch that panics with
    the message about a small map with no empty slot is not taken. *)
Theorem putSlotSmall_finds_empty_slot m hash k :
  emptyOrOccupied (smallGroup m) ->
  usedCountsOccupied m ->
  used m < SwissMapGroupSlots ->
  matchEmpty (ctrls (smallGroup m)) <> 0 /\
  exists r, putSlotSmall m hash k = Ok r.
Proof.
  intros Hv Hu Hlt.
  pose proof (matchEmpty_nonzero m Hv Hu Hlt) as Hne.
  split; [exact Hne |].
  unfold putSlotSmall. destruct (matchLoop 64 _ _); [eauto |].
  destruct (Z.eqb_spec (matchEmpty (ctrls (smallGroup m))) 0); [contradiction |].
  eauto.
Qed.


(** *** The small map as a finite map *)

(** The key equality supplied with the key type is exact equality. *)
Hypothesis keyEqual_spec : forall a b, keyEqual a b = true <-> a = b.

Lemma occupied_ctrl m i :
  smallInv m -> 0 <= i < 8 -> occupied (smallGroup m) i = true ->
  ctrls_get (ctrls (smallGroup m)) i = h2 (hasher (key (smallGroup m) i) (seed m)).
Proof.
  intros Hinv Hi Ho. destruct (inv_ctrl m Hinv i Hi) as [He | Hc]; [| exact Hc].
  unfold occupied in Ho. rewrite He in Ho. discriminate.
Qed.

Lemma not_occupied_ctrl m i :
  smallInv m -> 0 <= i < 8 -> occupied (smallGroup m) i = false ->
  ctrls_get (ctrls (smallGroup m)) i = ctrlEmpty.
Proof.
  intros Hinv Hi Ho. destruct (inv_ctrl m Hinv i Hi) as [He | Hc]; [exact He |].
  unfold occupied in Ho. rewrite Hc in Ho.
  pose proof (h2_range (hasher (key (smallGroup m) i) (seed m))).
  apply Z.ltb_ge in Ho. lia.
Qed.

Lemma smallInv_emptyOrOccupied m : smallInv m -> emptyOrOccupied (smallGroup m).
Proof.
  intros Hinv i Hi. destruct (occupied (smallGroup m) i) eqn:E; [auto |].
  left. apply not_occupied_ctrl; assumption.
Qed.

(** The probe over the [matchH2] candidates finds the slot of [k]. *)
Lemma matchLoop_slotOf m k :
  smallInv m ->
  matchLoop 64 (matchH2 (ctrls (smallGroup m)) (h2 (hasher k (seed m))))
            (fun i => keyEqual k (key (smallGroup m) i))
  = slotOf m k.
Proof.
  intros Hinv. rewrite matchH2_loop. unfold candidates, slotOf.
  rewrite find_filter. apply find_ext_in. intros i Hi%slotIndices_In.
  destruct (keyEqual k (key (smallGroup m) i)) eqn:E;
    rewrite ?andb_false_r; [| reflexivity].
  rewrite !andb_true_r. apply keyEqual_spec in E. subst k.
  destruct (occupied (smallGroup m) i) eqn:Ho.
  - apply matchH2_hit; [apply Hinv | exact Hi | apply h2_range |].
    apply occupied_ctrl; assumption.
  - destruct (inMatch _ i) eqn:Hm; [| reflexivity].
    apply matchH2_full in Hm; [| exact Hi | apply h2_range].
    unfold occupied in Ho. apply Z.ltb_ge in Ho. lia.
Qed.

Lemma u8_shiftr c i : 0 <= i -> u8 (Z.shiftr c (8 * i)) = ctrls_get c i.
Proof.
  intros Hi. unfold u8, ctrls_get. change 255 with (Z.ones 8).
  rewrite Z.land_ones by lia. reflexivity.
Qed.

Lemma getWithKeySmall_loop_find n i c h g k :
  0 <= i ->
  getWithKeySmall_loop n i (Z.shiftr c (8 * i)) h g k =
  (fun j => (key g j, elem g j)) <$>
    List.find (fun j => (ctrls_get c j =? h) && keyEqual k (key g j))
              (slotsFrom i n).
Proof.
  revert i. induction n as [| n IH]; intros i Hi; cbn; [reflexivity |].
  rewrite u8_shiftr by exact Hi.
  rewrite Z.shiftr_shiftr by lia.
  replace (8 * i + 8) with (8 * (i + 1)) by lia.
  destruct (ctrls_get c i =? h); cbn.
  - destruct (keyEqual k (key g i)); [reflexivity | apply IH; lia].
  - apply IH; lia.
Qed.

Lemma getWithKeySmall_slotOf m k :
  smallInv m ->
  getWithKeySmall m (hasher k (seed m)) k =
  (fun j => (key (smallGroup m) j, elem (smallGroup m) j)) <$> slotOf m k.
Proof.
  intros Hinv. unfold getWithKeySmall.
  pose proof (getWithKeySmall_loop_find 8 0 (ctrls (smallGroup m))
                (u8 (h2 (hasher k (seed m)))) (smallGroup m) k) as H.
  rewrite Z.shiftr_0_r in H. rewrite H by lia. clear H.
  change (slotsFrom 0 8) with slotIndices. unfold slotOf. f_equal.
  apply find_ext_in. intros i Hi%slotIndices_In. rewrite u8_h2.
  destruct (keyEqual k (key (smallGroup m) i)) eqn:E;
    rewrite ?andb_false_r; [| reflexivity].
  rewrite !andb_true_r. apply keyEqual_spec in E. subst k.
  destruct (occupied (smallGroup m) i) eqn:Ho.
  - rewrite (occupied_ctrl m i) by assumption. apply Z.eqb_refl.
  - rewrite (not_occupied_ctrl m i) by assumption.
    pose proof (h2_range (hasher (key (smallGroup m) i) (seed m))).
    apply Z.eqb_neq. unfold ctrlEmpty. lia.
Qed.

(** [Get] on a small map reads the abstract map. *)
Lemma Get_small m k : smallInv m -> Get m k = Small (lookup m k).
Proof.
  intros Hinv. unfold Get, getWithoutKey.
  rewrite (inv_dirLen m Hinv), Z.eqb_refl.
  rewrite getWithKeySmall_slotOf by exact Hinv.
  unfold lookup. destruct (slotOf m k); reflexivity.
Qed.

(** *** Reading a group after a store *)

Lemma key_set_key g i j k :
  0 <= i < 8 -> 0 <= j -> length (slotKeys g) = 8%nat ->
  key (set_key i k g) j = if i =? j then k else key g j.
Proof.
  intros Hi Hj Hlen. unfold key, set_key. cbn.
  rewrite nth_insert by lia.
  destruct (Nat.eqb_spec (Z.to_nat i) (Z.to_nat j)), (Z.eqb_spec i j);
    reflexivity || lia.
Qed.

Lemma elem_set_elem g i j v :
  0 <= i < 8 -> 0 <= j -> length (slotElems g) = 8%nat ->
  elem (set_elem i v g) j = if i =? j then v else elem g j.
Proof.
  intros Hi Hj Hlen. unfold elem, set_elem. cbn.
  rewrite nth_insert by lia.
  destruct (Nat.eqb_spec (Z.to_nat i) (Z.to_nat j)), (Z.eqb_spec i j);
    reflexivity || lia.
Qed.

Lemma ctrls_set_key g i k : ctrls (set_key i k g) = ctrls g.
Proof. reflexivity. Qed.
Lemma ctrls_set_elem g i v : ctrls (set_elem i v g) = ctrls g.
Proof. reflexivity. Qed.
Lemma ctrls_set_ctrls g c : ctrls (set_ctrls c g) = c.
Proof. reflexivity. Qed.
Lemma key_set_elem g i v j : key (set_elem i v g) j = key g j.
Proof. reflexivity. Qed.
Lemma key_set_ctrls g c j : key (set_ctrls c g) j = key g j.
Proof. reflexivity. Qed.
Lemma elem_set_key g i k j : elem (set_key i k g) j = elem g j.
Proof. reflexivity. Qed.
Lemma elem_set_ctrls g c j : elem (set_ctrls c g) j = elem g j.
Proof. reflexivity. Qed.
Lemma occupied_set_key g i k j : occupied (set_key i k g) j = occupied g j.
Proof. reflexivity. Qed.
Lemma occupied_set_elem g i v j : occupied (set_elem i v g) j = occupied g j.
Proof. reflexivity. Qed.
Lemma slotKeys_length_set g i k c v :
  length (slotKeys (set_key i k g)) = length (slotKeys g) /\
  length (slotKeys (set_ctrls c g)) = length (slotKeys g) /\
  length (slotKeys (set_elem i v g)) = length (slotKeys g).
Proof. cbn. rewrite length_insert. auto. Qed.
Lemma slotElems_length_set g i k c v :
  length (slotElems (set_key i k g)) = length (slotElems g) /\
  length (slotElems (set_ctrls c g)) = length (slotElems g) /\
  length (slotElems (set_elem i v g)) = length (slotElems g).
Proof. cbn. rewrite length_insert. auto. Qed.

Lemma occupied_set_ctrls g i c j :
  0 <= i < 8 -> 0 <= j < 8 -> 0 <= c < 256 ->
  occupied (set_ctrls (ctrls_set (ctrls g) i c) g) j =
  if i =? j then c <? 128 else occupied g j.
Proof.
  intros Hi Hj Hc. unfold occupied. rewrite ctrls_set_ctrls, ctrls_get_set by assumption.
  destruct (i =? j); reflexivity.
Qed.

(** Projections of a map after a field update. *)
Ltac map_fields :=
  cbn [smallGroup seed dirLen used clearSeq set_smallGroup set_used set_clearSeq] in *.

Lemma slotOf_Some m k i :
  slotOf m k = Some i ->
  0 <= i < 8 /\ occupied (smallGroup m) i = true /\ key (smallGroup m) i = k.
Proof.
  unfold slotOf. intros [Hin Hp]%List.find_some.
  apply slotIndices_In in Hin. apply andb_true_iff in Hp as [Ho Hk].
  apply keyEqual_spec in Hk. auto.
Qed.

Lemma slotOf_None m k i :
  slotOf m k = None -> 0 <= i < 8 -> occupied (smallGroup m) i = true ->
  key (smallGroup m) i <> k.
Proof.
  unfold slotOf. intros Hnone Hi Ho Hk.
  pose proof (List.find_none _ _ Hnone i (proj2 (slotIndices_In i) Hi)) as H.
  cbn in H. rewrite Ho in H. cbn in H.
  assert (keyEqual k (key (smallGroup m) i) = true)
    by (apply keyEqual_spec; congruence).
  congruence.
Qed.

Lemma slotOf_intro m k i :
  smallInv m -> 0 <= i < 8 -> occupied (smallGroup m) i = true ->
  key (smallGroup m) i = k -> slotOf m k = Some i.
Proof.
  intros Hinv Hi Ho Hk. unfold slotOf. apply find_unique.
  - apply slotIndices_In. exact Hi.
  - rewrite Ho. cbn. apply keyEqual_spec. congruence.
  - intros j Hj%slotIndices_In [Hoj Hkj%keyEqual_spec]%andb_true_iff.
    apply (inv_distinct m Hinv); auto. congruence.
Qed.

Lemma keyEqual_false a b : a <> b -> keyEqual a b = false.
Proof.
  intros Hne. destruct (keyEqual a b) eqn:E; [| reflexivity].
  apply keyEqual_spec in E. contradiction.
Qed.

Lemma occupied_count_bound g :
  (length (List.filter (occupied g) slotIndices) <= 8)%nat.
Proof. apply (List.filter_length_le (occupied g) slotIndices). Qed.

(** *** [Put] on a small map *)

(** Writing [v] for a key that already has a slot. *)
Lemma Put_small_update m k v i :
  smallInv m -> used m < SwissMapGroupSlots -> slotOf m k = Some i ->
  exists m',
    Put m k v = Ok (Small m') /\ smallInv m' /\ seed m' = seed m /\
    used m' = used m /\ lookup m' k = Some v /\
    (forall k', k' <> k -> lookup m' k' = lookup m k').
Proof.
  intros Hinv Hlt Hslot.
  destruct (slotOf_Some _ _ _ Hslot) as (Hi & Ho & Hk).
  unfold Put, PutSlot, putSlotSmall.
  rewrite (inv_dirLen m Hinv), Z.eqb_refl.
  destruct (Z.ltb_spec (used m) SwissMapGroupSlots); [| lia].
  rewrite matchLoop_slotOf, Hslot by exact Hinv.
  eexists. split; [reflexivity |].
  set (g := smallGroup m) in *.
  set (g1 := if needKeyUpdate then set_key i k g else g).
  assert (Hkeys : forall j, 0 <= j -> key g1 j = key g j).
  { intros j Hj. unfold g1. destruct needKeyUpdate; [| reflexivity].
    rewrite key_set_key by (auto; apply Hinv).
    destruct (Z.eqb_spec i j); congruence. }
  assert (Hc1 : ctrls g1 = ctrls g) by (unfold g1; destruct needKeyUpdate; reflexivity).
  assert (Hel1 : forall j, elem g1 j = elem g j)
    by (intros j; unfold g1; destruct needKeyUpdate; reflexivity).
  assert (Hle1 : length (slotElems g1) = 8%nat).
  { unfold g1. destruct needKeyUpdate; apply Hinv. }
  assert (Hlk1 : length (slotKeys g1) = 8%nat).
  { unfold g1. destruct needKeyUpdate; cbn; rewrite ?length_insert; apply Hinv. }
  assert (Ho1 : forall j, occupied (set_elem i v g1) j = occupied g j).
  { intros j. unfold occupied. cbn. rewrite Hc1. reflexivity. }
  assert (Hk1 : forall j, 0 <= j -> key (set_elem i v g1) j = key g j).
  { intros j Hj. rewrite <- Hkeys by exact Hj. reflexivity. }
  assert (Hinv' : smallInv (set_smallGroup (set_elem i v g1) (set_smallGroup g1 m))).
  { constructor; map_fields.
    - apply Hinv.
    - rewrite ctrls_set_elem, Hc1. apply Hinv.
    - rewrite (proj2 (proj2 (slotKeys_length_set g1 i k 0 v))). exact Hlk1.
    - rewrite (proj2 (proj2 (slotElems_length_set g1 i k 0 v))). exact Hle1.
    - intros j Hj. rewrite ctrls_set_elem, Hc1, Hk1 by lia.
      apply (inv_ctrl m Hinv j Hj).
    - intros a b Ha Hb. rewrite !Ho1, !Hk1 by lia. apply (inv_distinct m Hinv); auto.
    - unfold usedCountsOccupied. map_fields.
      rewrite (filter_length_ext_in _ (occupied g)) by (intros; apply Ho1).
      apply (inv_used m Hinv). }
  split; [exact Hinv' |]. split; [reflexivity |]. split; [reflexivity |].
  assert (Hslots : forall k', slotOf (set_smallGroup (set_elem i v g1) (set_smallGroup g1 m)) k'
                              = slotOf m k').
  { intros k'. unfold slotOf. map_fields. apply find_ext_in.
    intros j Hj%slotIndices_In. fold g. rewrite Ho1, Hk1 by lia. reflexivity. }
  split.
  - unfold lookup. rewrite Hslots, Hslot. map_fields. cbn [fmap option_fmap option_map].
    rewrite elem_set_elem, Z.eqb_refl by (auto; lia). reflexivity.
  - intros k' Hne. unfold lookup. rewrite Hslots.
    destruct (slotOf m k') as [j |] eqn:Hs'; [| reflexivity].
    map_fields. cbn [fmap option_fmap option_map].
    destruct (slotOf_Some _ _ _ Hs') as (Hj & Hoj & Hkj).
    rewrite elem_set_elem by (auto; lia).
    destruct (Z.eqb_spec i j) as [-> | _]; [| rewrite Hel1; reflexivity].
    fold g in Hkj. congruence.
Qed.

(** Writing [v] for a key that has no slot yet. *)
Lemma Put_small_insert m k v :
  smallInv m -> used m < SwissMapGroupSlots -> slotOf m k = None ->
  exists m',
    Put m k v = Ok (Small m') /\ smallInv m' /\ seed m' = seed m /\
    used m' = used m + 1 /\ lookup m' k = Some v /\
    (forall k', k' <> k -> lookup m' k' = lookup m k').
Proof.
  intros Hinv Hlt Hslot.
  pose proof (smallInv_emptyOrOccupied m Hinv) as Hv.
  pose proof (matchEmpty_nonzero m Hv (inv_used m Hinv) Hlt) as Hne.
  unfold Put, PutSlot, putSlotSmall.
  rewrite (inv_dirLen m Hinv), Z.eqb_refl.
  destruct (Z.ltb_spec (used m) SwissMapGroupSlots); [| lia].
  rewrite matchLoop_slotOf, Hslot by exact Hinv.
  destruct (Z.eqb_spec (matchEmpty (ctrls (smallGroup m))) 0); [contradiction |].
  destruct (matchEmpty_first _ Hne) as [Hi Hm].
  set (i := first (matchEmpty (ctrls (smallGroup m)))) in *.
  set (g := smallGroup m) in *.
  set (h := hasher k (seed m)).
  assert (Hfree : occupied g i = false).
  { apply matchEmpty_only_empty in Hm; [| exact Hi].
    unfold occupied. apply Z.ltb_ge. exact Hm. }
  pose proof (h2_range h) as Hh.
  set (g2 := set_elem i v (set_ctrls (ctrls_set (ctrls (set_key i k g)) i (u8 (h2 h)))
                                      (set_key i k g))).
  set (m' := set_smallGroup g2
               (set_used (u64 (used m + 1))
                  (set_smallGroup (set_ctrls (ctrls_set (ctrls (set_key i k g)) i (u8 (h2 h)))
                                             (set_key i k g)) m))).
  exists m'. split; [reflexivity |].
  assert (Hocc : forall j, 0 <= j < 8 ->
                   occupied g2 j = if i =? j then true else occupied g j).
  { intros j Hj. unfold g2. rewrite occupied_set_elem, occupied_set_ctrls, u8_h2
      by (rewrite ?u8_h2; lia).
    rewrite occupied_set_key.
    destruct (i =? j); [apply Z.ltb_lt; lia | reflexivity]. }
  assert (Hkey : forall j, 0 <= j < 8 -> key g2 j = if i =? j then k else key g j).
  { intros j Hj. unfold g2. rewrite key_set_elem, key_set_ctrls.
    apply key_set_key; [exact Hi | lia | apply Hinv]. }
  assert (Helem : forall j, 0 <= j < 8 -> elem g2 j = if i =? j then v else elem g j).
  { intros j Hj. unfold g2. rewrite elem_set_elem; [reflexivity | exact Hi | lia |].
    apply Hinv. }
  assert (Hcount : length (List.filter (occupied g2) slotIndices)
                   = S (length (List.filter (occupied g) slotIndices))).
  { apply (filter_length_flip _ _ _ i).
    - apply slotIndices_NoDup.
    - apply slotIndices_In. exact Hi.
    - exact Hfree.
    - rewrite Hocc, Z.eqb_refl by exact Hi. reflexivity.
    - intros j Hj%slotIndices_In Hji. rewrite Hocc by exact Hj.
      destruct (Z.eqb_spec i j); [congruence | reflexivity]. }
  pose proof (occupied_count_bound g) as Hbound.
  pose proof (inv_used m Hinv) as Hused. unfold usedCountsOccupied in Hused.
  fold g in Hused.
  assert (Hinv' : smallInv m').
  { constructor; unfold m'; map_fields.
    - apply Hinv.
    - unfold g2. rewrite ctrls_set_elem, ctrls_set_ctrls, ctrls_set_key.
      apply ctrls_set_word64; [apply Hinv | exact Hi | rewrite u8_h2; lia].
    - unfold g2. cbn. rewrite length_insert. apply Hinv.
    - unfold g2. cbn. rewrite length_insert. apply Hinv.
    - intros j Hj. rewrite Hkey by exact Hj.
      unfold g2. rewrite ctrls_set_elem, ctrls_set_ctrls, ctrls_set_key.
      rewrite ctrls_get_set, u8_h2 by (rewrite ?u8_h2; lia).
      destruct (i =? j); [right; reflexivity | apply (inv_ctrl m Hinv j Hj)].
    - intros a b Ha Hb. rewrite !Hocc, !Hkey by assumption.
      destruct (Z.eqb_spec i a) as [<- | Hia], (Z.eqb_spec i b) as [<- | Hib];
        intros Hoa Hob Hkk.
      + reflexivity.
      + exfalso. apply (slotOf_None m k b Hslot Hb Hob). symmetry. exact Hkk.
      + exfalso. apply (slotOf_None m k a Hslot Ha Hoa). exact Hkk.
      + apply (inv_distinct m Hinv); assumption.
    - unfold usedCountsOccupied. map_fields. rewrite Hcount, u64_small; lia. }
  split; [exact Hinv' |]. split; [reflexivity |].
  split; [unfold m'; map_fields; apply u64_small; lia |].
  split.
  - unfold lookup.
    rewrite (slotOf_intro _ k i Hinv'); unfold m'; map_fields;
      rewrite ?Hocc, ?Hkey, ?Z.eqb_refl by exact Hi; try reflexivity; try exact Hi.
    cbn [fmap option_fmap option_map]. rewrite Helem, Z.eqb_refl by exact Hi.
    reflexivity.
  - intros k' Hne'. unfold lookup.
    assert (Hs : slotOf m' k'
                 = slotOf m k').
    { unfold slotOf, m'. map_fields. apply find_ext_in. intros j Hj%slotIndices_In.
      fold g. rewrite Hocc, Hkey by exact Hj.
      destruct (Z.eqb_spec i j) as [<- | _]; [| reflexivity].
      rewrite Hfree, keyEqual_false by exact Hne'. reflexivity. }
    rewrite Hs. destruct (slotOf m k') as [j |] eqn:Hs'; [| reflexivity].
    unfold m'. map_fields. cbn [fmap option_fmap option_map].
    destruct (slotOf_Some _ _ _ Hs') as (Hj & Hoj & Hkj).
    rewrite Helem by exact Hj.
    destruct (Z.eqb_spec i j) as [<- | _]; [| reflexivity].
    fold g in Hoj. congruence.
Qed.

(** [Put] on a small map with room left: the abstract map gains or
    updates the binding of [k] and no other. *)
Lemma Put_small m k v :
  smallInv m -> used m < SwissMapGroupSlots ->
  exists m',
    Put m k v = Ok (Small m') /\ smallInv m' /\
    used m' = match lookup m k with Some _ => used m | None => used m + 1 end /\
    lookup m' k = Some v /\
    (forall k', k' <> k -> lookup m' k' = lookup m k').
Proof.
  intros Hinv Hlt. unfold lookup at 1.
  destruct (slotOf m k) as [i |] eqn:Hs.
  - destruct (Put_small_update m k v i Hinv Hlt Hs)
      as (m' & H1 & H2 & _ & H3 & H4 & H5).
    exists m'. auto.
  - destruct (Put_small_insert m k v Hinv Hlt Hs)
      as (m' & H1 & H2 & _ & H3 & H4 & H5).
    exists m'. auto.
Qed.

(** *** [Delete] on a small map *)

Lemma Delete_small m k :
  smallInv m ->
  exists m',
    Delete m k = Small m' /\ smallInv m' /\
    used m' = match lookup m k with Some _ => used m - 1 | None => used m end /\
    lookup m' k = None /\
    (forall k', k' <> k -> lookup m' k' = lookup m k').
Proof.
  intros Hinv. unfold Delete, deleteSmall.
  rewrite (inv_dirLen m Hinv), Z.eqb_refl.
  rewrite matchLoop_slotOf by exact Hinv. unfold lookup at 1.
  destruct (slotOf m k) as [i |] eqn:Hslot.
  2:{ exists m. split; [reflexivity |]. split; [exact Hinv |].
      split; [reflexivity |]. split; [| reflexivity].
      unfold lookup. rewrite Hslot. reflexivity. }
  destruct (slotOf_Some _ _ _ Hslot) as (Hi & Ho & Hk).
  set (g := smallGroup m) in *.
  set (g2 := set_ctrls (ctrls_set (ctrls (set_elem i zeroV (set_key i zeroK g))) i ctrlEmpty)
                       (set_elem i zeroV (set_key i zeroK g))).
  set (m' := set_smallGroup g2 (set_used (u64 (used m - 1)) m)).
  exists m'. split; [reflexivity |].
  cbn [fmap option_fmap option_map].
  assert (Hocc : forall j, 0 <= j < 8 ->
                   occupied g2 j = if i =? j then false else occupied g j).
  { intros j Hj. unfold g2. rewrite occupied_set_ctrls by (unfold ctrlEmpty; lia).
    rewrite occupied_set_elem, occupied_set_key. reflexivity. }
  assert (Hkey : forall j, 0 <= j < 8 -> key g2 j = if i =? j then zeroK else key g j).
  { intros j Hj. unfold g2. rewrite key_set_ctrls, key_set_elem.
    apply key_set_key; [exact Hi | lia | apply Hinv]. }
  assert (Helem : forall j, 0 <= j < 8 -> elem g2 j = if i =? j then zeroV else elem g j).
  { intros j Hj. unfold g2. rewrite elem_set_ctrls.
    rewrite elem_set_elem; [reflexivity | exact Hi | lia |].
    cbn. apply Hinv. }
  assert (Hcount : length (List.filter (occupied g) slotIndices)
                   = S (length (List.filter (occupied g2) slotIndices))).
  { apply (filter_length_flip _ _ _ i).
    - apply slotIndices_NoDup.
    - apply slotIndices_In. exact Hi.
    - rewrite Hocc, Z.eqb_refl by exact Hi. reflexivity.
    - exact Ho.
    - intros j Hj%slotIndices_In Hji. rewrite Hocc by exact Hj.
      destruct (Z.eqb_spec i j); [congruence | reflexivity]. }
  pose proof (occupied_count_bound g) as Hbound.
  pose proof (inv_used m Hinv) as Hused. unfold usedCountsOccupied in Hused.
  fold g in Hused.
  assert (Hinv' : smallInv m').
  { constructor; unfold m'; map_fields.
    - apply Hinv.
    - unfold g2. rewrite ctrls_set_ctrls, ctrls_set_elem, ctrls_set_key.
      apply ctrls_set_word64; [apply Hinv | exact Hi | unfold ctrlEmpty; lia].
    - unfold g2. cbn. rewrite length_insert. apply Hinv.
    - unfold g2. cbn. rewrite length_insert. apply Hinv.
    - intros j Hj. rewrite Hkey by exact Hj.
      unfold g2. rewrite ctrls_set_ctrls, ctrls_set_elem, ctrls_set_key.
      rewrite ctrls_get_set by (unfold ctrlEmpty; lia).
      destruct (i =? j); [left; reflexivity | apply (inv_ctrl m Hinv j Hj)].
    - intros a b Ha Hb. rewrite !Hocc, !Hkey by assumption.
      destruct (Z.eqb_spec i a), (Z.eqb_spec i b); try discriminate.
      apply (inv_distinct m Hinv); assumption.
    - unfold usedCountsOccupied. map_fields. rewrite u64_small; lia. }
  split; [exact Hinv' |]. split; [unfold m'; map_fields; apply u64_small; lia |].
  assert (Hs : forall k', k' <> k ->
             slotOf m' k'
             = slotOf m k').
  { intros k' Hne'. unfold slotOf, m'. map_fields. apply find_ext_in.
    intros j Hj%slotIndices_In. fold g. rewrite Hocc, Hkey by exact Hj.
    destruct (Z.eqb_spec i j) as [<- | _]; [| reflexivity].
    cbn [andb]. rewrite Hk, (keyEqual_false k' k), andb_false_r by exact Hne'.
    reflexivity. }
  split.
  - unfold lookup.
    destruct (slotOf m' k) as [j |] eqn:Hs'; [| reflexivity]. exfalso.
    destruct (slotOf_Some _ _ _ Hs') as (Hj & Hoj & Hkj). unfold m' in Hoj, Hkj. map_fields.
    rewrite Hocc in Hoj by exact Hj. rewrite Hkey in Hkj by exact Hj.
    destruct (Z.eqb_spec i j) as [| Hij]; [discriminate |].
    apply Hij. apply (inv_distinct m Hinv); auto. fold g. congruence.
  - intros k' Hne'. unfold lookup. rewrite Hs by exact Hne'.
    destruct (slotOf m k') as [j |] eqn:Hs'; [| reflexivity].
    unfold m'. map_fields. cbn [fmap option_fmap option_map].
    destruct (slotOf_Some _ _ _ Hs') as (Hj & Hoj & Hkj).
    rewrite Helem by exact Hj.
    destruct (Z.eqb_spec i j) as [<- | _]; [| reflexivity].
    fold g in Hkj. congruence.
Qed.

(** *** The empty small map *)

Lemma NewMap_smallInv capacity m :
  NewMap capacity = Small m ->
  smallInv m /\ used m = 0 /\ forall k, lookup m k = None.
Proof.
  intros Hnew. destruct (NewMap_small _ _ Hnew) as (Hd & Hu & Hg).
  assert (Hocc : forall i, 0 <= i < 8 -> occupied (smallGroup m) i = false).
  { intros i Hi. unfold occupied. rewrite Hg. cbn [ctrls].
    rewrite ctrls_get_setEmpty by exact Hi. reflexivity. }
  split; [| split; [exact Hu |]].
  - constructor.
    + exact Hd.
    + rewrite Hg. cbn. unfold word64. split; [discriminate | reflexivity].
    + rewrite Hg. reflexivity.
    + rewrite Hg. reflexivity.
    + intros i Hi. left. rewrite Hg. apply ctrls_get_setEmpty. exact Hi.
    + intros i j Hi Hj Ho. rewrite Hocc in Ho by exact Hi. discriminate.
    + unfold usedCountsOccupied. rewrite Hu, Hg. reflexivity.
  - intros k. unfold lookup, slotOf.
    rewrite (find_ext_in _ (fun _ => false)); [reflexivity |].
    intros i Hi%slotIndices_In. rewrite Hocc by exact Hi. reflexivity.
Qed.

(** One [Put] of the scenario: the run continues from the map [Put]
    returns. *)
Lemma runOps_Put k v rest m m' :
  Put m k v = Ok (Small m') -> runOps (OpPut k v :: rest) m = runOps rest m'.
Proof. intros H. cbn [runOps applyOp]. rewrite H. reflexivity. Qed.

Lemma runOps_Delete k rest m m' :
  Delete m k = Small m' -> runOps (OpDelete k :: rest) m = runOps rest m'.
Proof. intros H. cbn [runOps applyOp]. rewrite H. reflexivity. Qed.

(** C1: starting from the empty small map that [NewMap] builds, for any
    five distinct keys and any values, after [Put(k1,v1)], ...,
    [Put(k5,v5)] and [Delete(k3)] the map is still a small map, [Get(k3)]
    reports absence, [Get] of the four other keys returns the value put
    for that key, and [Used()] is 4.  The hash function is any function
    and the key equality decides equality of keys. *)
Theorem small_map_put5_delete_get capacity m0 k1 k2 k3 k4 k5 v1 v2 v3 v4 v5 :
  NewMap capacity = Small m0 ->
  List.NoDup [k1; k2; k3; k4; k5] ->
  exists m,
    runOps [OpPut k1 v1; OpPut k2 v2; OpPut k3 v3; OpPut k4 v4; OpPut k5 v5;
            OpDelete k3] m0 = Ok (Small m) /\
    Get m k3 = Small None /\
    Get m k1 = Small (Some v1) /\ Get m k2 = Small (Some v2) /\
    Get m k4 = Small (Some v4) /\ Get m k5 = Small (Some v5) /\
    Used m = 4.
Proof.
  intros Hnew Hnd.
  assert (Hne : k1 <> k2 /\ k1 <> k3 /\ k1 <> k4 /\ k1 <> k5 /\ k2 <> k3 /\
                k2 <> k4 /\ k2 <> k5 /\ k3 <> k4 /\ k3 <> k5 /\ k4 <> k5).
  { repeat match goal with
           | H : List.NoDup (_ :: _) |- _ =>
               apply List.NoDup_cons_iff in H; destruct H
           end.
    repeat split; intros ->;
      match goal with
      | H : ~ In _ _ |- _ => solve [apply H; cbn; auto 10]
      end. }
  destruct Hne as (n12 & n13 & n14 & n15 & n23 & n24 & n25 & n34 & n35 & n45).
  destruct (NewMap_smallInv _ _ Hnew) as (I0 & U0 & L0).
  destruct (Put_small m0 k1 v1 I0) as (m1 & P1 & I1 & U1 & G1 & F1);
    [unfold SwissMapGroupSlots; lia |].
  rewrite L0 in U1.
  destruct (Put_small m1 k2 v2 I1) as (m2 & P2 & I2 & U2 & G2 & F2);
    [unfold SwissMapGroupSlots; lia |].
  rewrite (F1 k2), L0 in U2 by congruence.
  destruct (Put_small m2 k3 v3 I2) as (m3 & P3 & I3 & U3 & G3 & F3);
    [unfold SwissMapGroupSlots; lia |].
  rewrite (F2 k3), (F1 k3), L0 in U3 by congruence.
  destruct (Put_small m3 k4 v4 I3) as (m4 & P4 & I4 & U4 & G4 & F4);
    [unfold SwissMapGroupSlots; lia |].
  rewrite (F3 k4), (F2 k4), (F1 k4), L0 in U4 by congruence.
  destruct (Put_small m4 k5 v5 I4) as (m5 & P5 & I5 & U5 & G5 & F5);
    [unfold SwissMapGroupSlots; lia |].
  rewrite (F4 k5), (F3 k5), (F2 k5), (F1 k5), L0 in U5 by congruence.
  destruct (Delete_small m5 k3 I5) as (m6 & D6 & I6 & U6 & G6 & F6).
  rewrite (F5 k3), (F4 k3), G3 in U6 by congruence.
  exists m6. split.
  { rewrite (runOps_Put _ _ _ _ _ P1), (runOps_Put _ _ _ _ _ P2),
      (runOps_Put _ _ _ _ _ P3), (runOps_Put _ _ _ _ _ P4),
      (runOps_Put _ _ _ _ _ P5), (runOps_Delete _ _ _ _ D6). reflexivity. }
  rewrite !Get_small by exact I6.
  repeat split.
  - f_equal. exact G6.
  - f_equal. rewrite (F6 k1), (F5 k1), (F4 k1), (F3 k1), (F2 k1) by congruence.
    exact G1.
  - f_equal. rewrite (F6 k2), (F5 k2), (F4 k2), (F3 k2) by congruence. exact G2.
  - f_equal. rewrite (F6 k4), (F5 k4) by congruence. exact G4.
  - f_equal. rewrite (F6 k5) by congruence. exact G5.
  - unfold Used. lia.
Qed.

(** *** [directoryIndex] *)

Lemma intShl1_small s : 0 <= s <= 62 -> intShl1 s = 2 ^ s.
Proof.
  intros Hs. unfold intShl1. destruct (Z.ltb_spec s 64); [| lia].
  rewrite Z.shiftl_1_l. apply i64_small.
  assert (0 < 2 ^ s) by (apply Z.pow_pos_nonneg; lia).
  assert (2 ^ s < 2 ^ 63) by (apply Z.pow_lt_mono_r; lia).
  change (2 ^ 63) with 9223372036854775808 in *. lia.
Qed.

Lemma intShl1_ge_1 s : 0 <= s -> 1 <= intShl1 s -> s <= 62.
Proof.
  intros Hs. unfold intShl1. destruct (Z.ltb_spec s 64); [| lia].
  destruct (Z.eq_dec s 63) as [-> | Hne]; [| lia].
  change (i64 (Z.shiftl 1 63)) with (- 9223372036854775808). lia.
Qed.

(** C10: on a map with a directory, that is with
    [dirLen == 1 << globalDepth >= 1] and
    [globalShift == 64 - globalDepth], [directoryIndex] of every 64-bit
    hash is below [dirLen]. *)
Theorem directoryIndex_in_range m hash :
  0 <= hash < 2 ^ 64 ->
  0 <= globalDepth m < 256 ->
  dirLen m = intShl1 (globalDepth m) ->
  1 <= dirLen m ->
  globalShift m = depthToShift (globalDepth m) ->
  0 <= directoryIndex m hash < dirLen m.
Proof.
  intros Hh Hd Hlen Hpos Hshift. unfold directoryIndex.
  destruct (Z.eqb_spec (dirLen m) 1) as [-> | Hne]; [lia |].
  assert (Hd62 : globalDepth m <= 62)
    by (apply intShl1_ge_1; [lia | rewrite <- Hlen; exact Hpos]).
  rewrite intShl1_small in Hlen by lia.
  assert (Hd1 : 1 <= globalDepth m).
  { destruct (Z.eq_dec (globalDepth m) 0) as [E | E]; [| lia].
    rewrite E in Hlen. cbn in Hlen. lia. }
  rewrite Hshift. unfold depthToShift, PtrSize, u8. cbn [Z.eqb Pos.eqb].
  rewrite (Z.mod_small (64 - globalDepth m)) by lia.
  change 63 with (Z.ones 6). rewrite Z.land_ones by lia.
  change (2 ^ 6) with 64. rewrite (Z.mod_small (64 - globalDepth m)) by lia.
  rewrite Z.shiftr_div_pow2 by lia. rewrite Hlen.
  assert (Hp : 0 < 2 ^ (64 - globalDepth m)) by (apply Z.pow_pos_nonneg; lia).
  split.
  - apply Z.div_pos; lia.
  - apply Z.div_lt_upper_bound; [exact Hp |].
    rewrite <- Z.pow_add_r by lia.
    replace (64 - globalDepth m + globalDepth m) with 64 by lia. lia.
Qed.

(** *** Stores into a directory array *)

Lemma lookupZ_Some d i t : lookupZ d i = Some t -> 0 <= i < Z.of_nat (length d).
Proof.
  unfold lookupZ. destruct (Z.leb_spec 0 i); [| discriminate].
  intros Hl%lookup_lt_Some. lia.
Qed.

Lemma lookupZ_lt d i : 0 <= i < Z.of_nat (length d) -> exists t, lookupZ d i = Some t.
Proof.
  intros Hi. unfold lookupZ. destruct (Z.leb_spec 0 i); [| lia].
  destruct (lookup_lt_is_Some_2 d (Z.to_nat i)) as [t Ht]; [lia |]. eauto.
Qed.

Lemma lookupZ_insert d i t j :
  0 <= i < Z.of_nat (length d) ->
  lookupZ (<[Z.to_nat i := t]> d) j = if i =? j then Some t else lookupZ d j.
Proof.
  intros Hi. unfold lookupZ.
  destruct (Z.eqb_spec i j) as [<- | Hne].
  - destruct (Z.leb_spec 0 i); [| lia].
    apply list_lookup_insert_eq. lia.
  - destruct (Z.leb_spec 0 j); [| reflexivity].
    apply list_lookup_insert_ne. lia.
Qed.

Lemma storeZ_Some d i t :
  0 <= i < Z.of_nat (length d) -> storeZ d i t = Some (<[Z.to_nat i := t]> d).
Proof.
  intros Hi. unfold storeZ.
  destruct (Z.leb_spec 0 i), (Z.ltb_spec i (Z.of_nat (length d))); try lia.
  reflexivity.
Qed.

Lemma replaceTable_loop_spec nt idx n :
  forall i m,
    0 <= i -> 0 <= idx ->
    idx + i + Z.of_nat n <= Z.of_nat (length (directory m)) ->
    Z.of_nat (length (directory m)) < 2 ^ 63 ->
    exists d,
      replaceTable_loop n i nt idx m = Some (set_directory d m) /\
      length d = length (directory m) /\
      forall j, lookupZ d j =
        if (idx + i <=? j) && (j <? idx + i + Z.of_nat n) then Some nt
        else lookupZ (directory m) j.
Proof.
  induction n as [| n IH]; intros i m Hi Hidx Hfit Hlen.
  - exists (directory m). split; [destruct m; reflexivity |].
    split; [reflexivity |]. intros j.
    destruct (Z.leb_spec (idx + i) j), (Z.ltb_spec j (idx + i + Z.of_nat 0));
      cbn; reflexivity || lia.
  - cbn [replaceTable_loop]. unfold directorySet.
    change (2 ^ 63) with 9223372036854775808 in Hlen.
    rewrite i64_small by lia. rewrite storeZ_Some by lia. cbn [mbind option_bind].
    destruct (IH (i + 1) (set_directory (<[Z.to_nat (idx + i) := nt]> (directory m)) m))
      as (d & Hrun & Hd & Hlook);
      try (cbn [directory set_directory]; rewrite ?length_insert; lia).
    exists d. split; [rewrite Hrun; destruct m; reflexivity |].
    cbn [directory set_directory] in Hd, Hlook. rewrite length_insert in Hd.
    split; [exact Hd |]. intros j. rewrite Hlook, lookupZ_insert by lia.
    destruct (Z.leb_spec (idx + (i + 1)) j), (Z.ltb_spec j (idx + (i + 1) + Z.of_nat n)),
      (Z.eqb_spec (idx + i) j), (Z.leb_spec (idx + i) j),
      (Z.ltb_spec j (idx + i + Z.of_nat (S n))); cbn; reflexivity || lia.
Qed.

(** *** Doubling the directory *)

Lemma growDirectory_loop_spec m n :
  forall i newDir h,
    0 <= i ->
    i + Z.of_nat n = Z.of_nat (length (directory m)) ->
    Z.of_nat (length newDir) = 2 * Z.of_nat (length (directory m)) ->
    Z.of_nat (length (directory m)) < 2 ^ 62 ->
    (forall j t, lookupZ (directory m) j = Some t -> is_Some (h !! t)) ->
    exists newDir' h',
      growDirectory_loop n i m newDir h = Some (newDir', h') /\
      length newDir' = length newDir /\
      (forall j, i <= j < Z.of_nat (length (directory m)) ->
         lookupZ newDir' (2 * j) = lookupZ (directory m) j /\
         lookupZ newDir' (2 * j + 1) = lookupZ (directory m) j) /\
      (forall j, 0 <= j < 2 * i -> lookupZ newDir' j = lookupZ newDir j) /\
      (forall t tt, h !! t = Some tt ->
         exists tt', h' !! t = Some tt' /\ localDepth tt' = localDepth tt /\
           ((forall j, i <= j < Z.of_nat (length (directory m)) ->
                       lookupZ (directory m) j <> Some t) -> tt' = tt) /\
           (forall a, i <= a < Z.of_nat (length (directory m)) -> index tt = a ->
              (forall j, i <= j < Z.of_nat (length (directory m)) ->
                         (lookupZ (directory m) j = Some t <-> j = a)) ->
              index tt' = 2 * a)).
Proof.
  set (len := Z.of_nat (length (directory m))).
  induction n as [| n IH]; intros i newDir h Hi Hn Hnew Hlen Halloc.
  - exists newDir, h. split; [reflexivity |]. split; [reflexivity |].
    split; [intros j Hj; lia |]. split; [reflexivity |].
    intros t tt Ht. exists tt. split; [exact Ht |]. split; [reflexivity |].
    split; [reflexivity |]. intros a Ha. lia.
  - change (2 ^ 62) with 4611686018427387904 in Hlen.
    cbn [growDirectory_loop]. unfold directoryAt.
    destruct (lookupZ_lt (directory m) i) as [t0 Ht0]; [fold len; lia |].
    rewrite Ht0. cbn [mbind option_bind].
    rewrite (i64_small (2 * i)) by lia. rewrite (i64_small (2 * i + 1)) by lia.
    rewrite storeZ_Some by lia. cbn [mbind option_bind].
    rewrite storeZ_Some by (rewrite length_insert; lia). cbn [mbind option_bind].
    destruct (Halloc i t0 Ht0) as [tt0 Htt0]. rewrite Htt0. cbn [mbind option_bind].
    set (newDir2 := <[Z.to_nat (2 * i + 1) := t0]> (<[Z.to_nat (2 * i) := t0]> newDir)).
    set (h1 := if index tt0 =? i then <[t0 := set_index (2 * i) tt0]> h else h).
    assert (Hh1 : forall t tt, h !! t = Some tt ->
              h1 !! t = Some (if decide (t = t0 /\ index tt0 = i)
                              then set_index (2 * i) tt else tt)).
    { intros t tt Ht. unfold h1. destruct (Z.eqb_spec (index tt0) i) as [E | E].
      - destruct (decide (t = t0)) as [-> | Hne].
        + rewrite lookup_insert_eq. rewrite decide_True by auto. congruence.
        + rewrite lookup_insert_ne by congruence.
          rewrite decide_False by (intros [? _]; contradiction). exact Ht.
      - rewrite decide_False by (intros [_ ?]; contradiction). exact Ht. }
    destruct (IH (i + 1) newDir2 h1) as (newDir' & h' & Hrun & Hl' & Hdup & Hpre & Hheap).
    + lia.
    + fold len. lia.
    + unfold newDir2. rewrite !length_insert. exact Hnew.
    + exact Hlen.
    + intros j t Hj. destruct (Halloc j t Hj) as [tt Ht].
      rewrite (Hh1 t tt Ht). eauto.
    + exists newDir', h'. split; [exact Hrun |].
      split; [rewrite Hl'; unfold newDir2; rewrite !length_insert; reflexivity |].
      assert (Hn2 : lookupZ newDir2 (2 * i) = Some t0 /\
                    lookupZ newDir2 (2 * i + 1) = Some t0).
      { unfold newDir2. rewrite !lookupZ_insert by (rewrite ?length_insert; lia).
        rewrite Z.eqb_refl.
        destruct (Z.eqb_spec (2 * i + 1) (2 * i)); [lia |].
        rewrite Z.eqb_refl. auto. }
      split; [| split].
      * intros j Hj. destruct (Z.eq_dec j i) as [-> | Hne].
        -- rewrite !Hpre by lia. rewrite Ht0. exact Hn2.
        -- apply Hdup. fold len. lia.
      * intros j Hj. rewrite Hpre by lia. unfold newDir2.
        rewrite !lookupZ_insert by (rewrite ?length_insert; lia).
        destruct (Z.eqb_spec (2 * i + 1) j), (Z.eqb_spec (2 * i) j); lia || reflexivity.
      * intros t tt Ht.
        destruct (Hheap t _ (Hh1 t tt Ht)) as (tt' & Ht' & Hld & Hsame & Hidx).
        exists tt'. split; [exact Ht' |].
        split; [rewrite Hld; destruct (decide _); reflexivity |].
        split.
        -- intros Hnone. rewrite Hsame by (intros j Hj; apply Hnone; lia).
           apply decide_False. intros [-> _]. apply (Hnone i); [lia | exact Ht0].
        -- intros a Ha Hia Huniq.
           destruct (Z.eq_dec a i) as [-> | Hne].
           ++ assert (Hti : lookupZ (directory m) i = Some t)
                by (apply Huniq; [lia | reflexivity]).
              assert (t = t0) as -> by congruence.
              assert (tt0 = tt) as -> by congruence.
              rewrite Hsame.
              ** rewrite decide_True by auto. reflexivity.
              ** intros j Hj Hjt. apply Huniq in Hjt; lia.
           ++ assert (Hnt : t <> t0).
              { intros ->. apply Hne. symmetry. apply Huniq; [lia | exact Ht0]. }
              rewrite decide_False in Hidx by (intros [? _]; contradiction).
              apply Hidx; [lia | exact Hia |].
              intros j Hj. apply Huniq. lia.
Qed.

(** *** Installing the two halves *)

Lemma replaceTable_spec m h nt t span :
  h !! nt = Some t ->
  intShl1 (u8 (globalDepth m - localDepth t)) = span ->
  0 <= index t -> 0 <= span ->
  index t + span <= Z.of_nat (length (directory m)) ->
  Z.of_nat (length (directory m)) < 2 ^ 63 ->
  exists d,
    replaceTable m h nt = Some (set_directory d m) /\
    length d = length (directory m) /\
    forall j, lookupZ d j =
      if (index t <=? j) && (j <? index t + span) then Some nt
      else lookupZ (directory m) j.
Proof.
  intros Ht He Hidx Hspan Hfit Hlen.
  unfold replaceTable. rewrite Ht. cbn [mbind option_bind]. rewrite He.
  destruct (replaceTable_loop_spec nt (index t) (Z.to_nat span) 0 m)
    as (d & Hrun & Hd & Hlook); try lia.
  exists d. split; [exact Hrun |]. split; [exact Hd |].
  intros j. rewrite Hlook. rewrite Z2Nat.id by lia.
  replace (index t + 0) with (index t) by lia. reflexivity.
Qed.

Lemma installTables_spec m h old left right o l r span :
  h !! old = Some o -> h !! left = Some l -> h !! right = Some r ->
  left <> right -> old <> left -> old <> right ->
  0 <= index o -> 0 <= span ->
  intShl1 (u8 (globalDepth m - localDepth l)) = span ->
  intShl1 (u8 (globalDepth m - localDepth r)) = span ->
  index o + 2 * span <= Z.of_nat (length (directory m)) ->
  Z.of_nat (length (directory m)) < 2 ^ 63 ->
  exists d h',
    installTables m h old left right = Some (set_directory d m, h') /\
    length d = length (directory m) /\
    (forall j, lookupZ d j =
       if (index o <=? j) && (j <? index o + span) then Some left
       else if (index o + span <=? j) && (j <? index o + 2 * span) then Some right
       else lookupZ (directory m) j) /\
    h' !! old = Some o /\
    h' !! left = Some (set_index (index o) l) /\
    h' !! right = Some (set_index (index o + span) r).
Proof.
  intros Ho Hl Hr Hlr Hol Hor Hidx Hspan HeL HeR Hfit Hlen.
  change (2 ^ 63) with 9223372036854775808 in Hlen.
  unfold installTables. rewrite Ho, Hl. cbn [mbind option_bind].
  set (h2 := <[left := set_index (index o) l]> h).
  assert (Hl2 : h2 !! left = Some (set_index (index o) l))
    by (unfold h2; apply lookup_insert_eq).
  assert (Hr2 : h2 !! right = Some r)
    by (unfold h2; rewrite lookup_insert_ne by congruence; exact Hr).
  destruct (replaceTable_spec m h2 left _ span Hl2) as (d1 & Hrun1 & Hd1 & Hlook1);
    cbn [localDepth set_index index]; try lia.
  rewrite Hrun1. cbn [mbind option_bind]. rewrite Hl2. cbn [mbind option_bind].
  rewrite Hr2. cbn [mbind option_bind].
  cbn [globalDepth set_directory localDepth set_index index]. rewrite HeL.
  rewrite (i64_small (index o + span)) by lia.
  set (h3 := <[right := set_index (index o + span) r]> h2).
  assert (Hr3 : h3 !! right = Some (set_index (index o + span) r))
    by (unfold h3; apply lookup_insert_eq).
  destruct (replaceTable_spec (set_directory d1 m) h3 right _ span Hr3)
    as (d2 & Hrun2 & Hd2 & Hlook2);
    cbn [globalDepth directory set_directory localDepth set_index index];
    rewrite ?Hd1; try lia.
  rewrite Hrun2. cbn [mbind option_bind].
  exists d2, h3. split; [destruct m; reflexivity |].
  cbn [directory set_directory localDepth set_index index] in Hd2, Hlook2, Hlook1.
  split; [congruence |]. split.
  - intros j. rewrite Hlook2, Hlook1.
    destruct (Z.leb_spec (index o) j), (Z.ltb_spec j (index o + span)),
      (Z.leb_spec (index o + span) j), (Z.ltb_spec j (index o + span + span)),
      (Z.ltb_spec j (index o + 2 * span));
      cbn; reflexivity || lia.
  - split; [| split].
    + unfold h3, h2. rewrite !lookup_insert_ne by congruence. exact Ho.
    + unfold h3. rewrite lookup_insert_ne by congruence. exact Hl2.
    + exact Hr3.
Qed.

Lemma pow2_pos n : 0 <= n -> 0 < 2 ^ n.
Proof. intros Hn. apply Z.pow_pos_nonneg; lia. Qed.

Lemma u8_small z : 0 <= z < 256 -> u8 z = z.
Proof. intros Hz. unfold u8. apply Z.mod_small. exact Hz. Qed.

Lemma growDirectory_spec m h :
  dirInv m h ->
  exists newDir h',
    growDirectory m h =
      Some (mkMap (used m) (seed m) (smallGroup m) newDir (2 * dirLen m)
                  (globalDepth m + 1) (u8 (globalShift m - 1)) (clearSeq m), h') /\
    Z.of_nat (length newDir) = 2 * dirLen m /\
    (forall j, 0 <= j < dirLen m ->
       lookupZ newDir (2 * j) = directoryAt m j /\
       lookupZ newDir (2 * j + 1) = directoryAt m j) /\
    (forall t tt, h !! t = Some tt ->
       exists tt', h' !! t = Some tt' /\ localDepth tt' = localDepth tt /\
         (forall a, 0 <= a < dirLen m -> index tt = a ->
            (forall j, 0 <= j < dirLen m -> (directoryAt m j = Some t <-> j = a)) ->
            index tt' = 2 * a)).
Proof.
  intros Hinv. pose proof (di_depth m h Hinv) as Hd.
  pose proof (di_dirLen m h Hinv) as Hlen. pose proof (di_length m h Hinv) as Hll.
  assert (Hp : 0 < dirLen m < 2 ^ 62).
  { rewrite Hlen. split; [apply pow2_pos; lia |]. apply Z.pow_lt_mono_r; lia. }
  change (2 ^ 62) with 4611686018427387904 in Hp.
  unfold growDirectory. rewrite (i64_small (dirLen m * 2)) by lia.
  destruct (Z.ltb_spec (dirLen m * 2) 0); [lia |].
  destruct (growDirectory_loop_spec m (Z.to_nat (dirLen m)) 0
              (replicate (Z.to_nat (dirLen m * 2)) nilTable) h)
    as (newDir & h' & Hrun & Hl' & Hdup & _ & Hheap).
  - lia.
  - lia.
  - rewrite length_replicate. lia.
  - rewrite Hll. change (2 ^ 62) with 4611686018427387904. lia.
  - intros j t Hj. destruct (di_tables m h Hinv j t Hj) as (tt & Ht & _). eauto.
  - rewrite length_replicate in Hl'.
    exists newDir, h'. rewrite Hrun. cbn [mbind option_bind].
    split; [| split; [lia | split]].
    + destruct newDir as [| t0 rest]; [cbn in Hl'; lia |].
      rewrite u8_small by lia. do 2 f_equal. f_equal; lia.
    + intros j Hj. apply Hdup. lia.
    + intros t tt Ht. destruct (Hheap t tt Ht) as (tt' & Ht' & Hld & _ & Hidx).
      exists tt'. split; [exact Ht' |]. split; [exact Hld |].
      intros a Ha Hia Hu. apply Hidx; [lia | exact Hia |].
      intros j Hj. apply Hu. lia.
Qed.

(** C5: [installTableSplit(old, left, right)] on a map that satisfies
    the directory invariants, where [old] is a table of the directory and
    [left] and [right] are two tables one bit deeper than [old].  When
    [old.localDepth == globalDepth] the directory is doubled first: the
    depth grows by one and entry [j] of the new directory is entry [j / 2]
    of the old one, [old.index] being doubled with it.  Afterwards [left]
    occupies the [1 << (globalDepth - left.localDepth)] directory entries
    that start at the index of [old], [right] the
    [1 << (globalDepth - right.localDepth)] entries that follow, and the
    two tables record these positions as their [index]. *)
Theorem installTableSplit_installs_spans m h old left right o l r i0 :
  dirInv m h ->
  directoryAt m i0 = Some old -> h !! old = Some o ->
  h !! left = Some l -> h !! right = Some r ->
  localDepth l = localDepth o + 1 -> localDepth r = localDepth o + 1 ->
  left <> right ->
  let grow := localDepth o =? globalDepth m in
  let depth := if grow then globalDepth m + 1 else globalDepth m in
  let start := if grow then 2 * index o else index o in
  let span := 2 ^ (depth - localDepth l) in
  exists m' h',
    installTableSplit m h old left right = Some (m', h') /\
    globalDepth m' = depth /\ dirLen m' = 2 ^ depth /\
    Z.of_nat (length (directory m')) = 2 ^ depth /\
    (forall j, start <= j < start + span -> directoryAt m' j = Some left) /\
    (forall j, start + span <= j < start + span + 2 ^ (depth - localDepth r) ->
               directoryAt m' j = Some right) /\
    (forall j, 0 <= j < 2 ^ depth -> ~ start <= j < start + 2 * span ->
               directoryAt m' j = directoryAt m (if grow then j / 2 else j)) /\
    index <$> h' !! old = Some start /\
    index <$> h' !! left = Some start /\
    index <$> h' !! right = Some (start + span).
Proof.
  intros Hinv Hat Ho Hl Hr Hll Hlr Hne. cbv zeta.
  pose proof (di_depth m h Hinv) as Hd.
  pose proof (di_dirLen m h Hinv) as Hlen. pose proof (di_length m h Hinv) as Hlength.
  destruct (di_tables m h Hinv i0 old Hat) as (o' & Ho' & Hld & Hspan).
  assert (o' = o) as -> by congruence.
  assert (Hol : old <> left) by (intros ->; assert (l = o) by congruence; subst; lia).
  assert (Hor : old <> right) by (intros ->; assert (r = o) by congruence; subst; lia).
  assert (Hself : directoryAt m (index o) = Some old).
  { apply Hspan. pose proof (pow2_pos (globalDepth m - localDepth o)). lia. }
  pose proof (lookupZ_Some _ _ _ Hself) as Hidx.
  unfold installTableSplit. rewrite Ho. cbn [mbind option_bind].
  rewrite Hlr, Hll.
  destruct (Z.eqb_spec (localDepth o) (globalDepth m)) as [Heq | Hneq].
  - (* the directory is doubled first *)
    destruct (growDirectory_spec m h Hinv) as (newDir & h1 & Hgrow & Hnl & Hdup & Hheap).
    rewrite Hgrow. cbn [mbind option_bind].
    set (m1 := mkMap (used m) (seed m) (smallGroup m) newDir (2 * dirLen m)
                     (globalDepth m + 1) (u8 (globalShift m - 1)) (clearSeq m)).
    destruct (Hheap old o Ho) as (o1 & Ho1 & Hold1 & Hoi1).
    destruct (Hheap left l Hl) as (l1 & Hl1 & Hll1 & _).
    destruct (Hheap right r Hr) as (r1 & Hr1 & Hlr1 & _).
    assert (Hi1 : index o1 = 2 * index o).
    { apply Hoi1; [lia | reflexivity |].
      intros j Hj. rewrite Hspan, Heq, Z.sub_diag. cbn. lia. }
    replace (globalDepth m + 1 - (localDepth o + 1)) with 0 by lia.
    change (2 ^ 0) with 1.
    destruct (installTables_spec m1 h1 old left right o1 l1 r1 1)
      as (d & h' & Hrun & Hdl & Hlook & Hfo & Hfl & Hfr); try assumption; try lia.
    + unfold m1. cbn [globalDepth]. rewrite Hll1, Hll, Heq.
      replace (globalDepth m + 1 - (globalDepth m + 1)) with 0 by lia. reflexivity.
    + unfold m1. cbn [globalDepth]. rewrite Hlr1, Hlr, Heq.
      replace (globalDepth m + 1 - (globalDepth m + 1)) with 0 by lia. reflexivity.
    + unfold m1. cbn [directory]. lia.
    + unfold m1. cbn [directory]. rewrite Hnl, Hlen.
      assert (2 ^ globalDepth m < 2 ^ 62) by (apply Z.pow_lt_mono_r; lia).
      change (2 ^ 62) with 4611686018427387904 in *.
      change (2 ^ 63) with 9223372036854775808. lia.
    + rewrite Hrun. exists (set_directory d m1), h'.
      split; [reflexivity |].
      unfold directoryAt. subst m1. cbn [globalDepth dirLen directory set_directory] in *.
      assert (Hp2 : 2 ^ (globalDepth m + 1) = 2 * 2 ^ globalDepth m).
      { rewrite Z.pow_add_r by lia. cbn. lia. }
      split; [reflexivity |]. split; [lia |]. split; [lia |].
      rewrite Hi1 in Hlook, Hfl, Hfr.
      split; [| split; [| split; [| split; [| split]]]].
      * intros j Hj. rewrite Hlook.
        destruct (Z.leb_spec (2 * index o) j), (Z.ltb_spec j (2 * index o + 1));
          cbn; reflexivity || lia.
      * intros j Hj. rewrite Hlook.
        destruct (Z.leb_spec (2 * index o) j), (Z.ltb_spec j (2 * index o + 1)),
          (Z.leb_spec (2 * index o + 1) j), (Z.ltb_spec j (2 * index o + 2 * 1));
          cbn; reflexivity || lia.
      * intros j Hj Hout. rewrite Hlook.
        destruct (Z.leb_spec (2 * index o) j), (Z.ltb_spec j (2 * index o + 1)),
          (Z.leb_spec (2 * index o + 1) j), (Z.ltb_spec j (2 * index o + 2 * 1));
          cbn; try lia.
        all: pose proof (Z.div_mod j 2 ltac:(lia)) as Hdm;
          pose proof (Z.mod_pos_bound j 2 ltac:(lia)) as Hmb;
          destruct (Hdup (j / 2)) as [He Ho2]; [lia |];
          destruct (Z.eq_dec (j mod 2) 0) as [E | E];
          [ replace j with (2 * (j / 2)) at 1 by lia; exact He
          | replace j with (2 * (j / 2) + 1) at 1 by lia; exact Ho2 ].
      * rewrite Hfo. cbn. f_equal. exact Hi1.
      * rewrite Hfl. reflexivity.
      * rewrite Hfr. reflexivity.
  - (* a spare directory bit exists *)
    cbn [mbind option_bind].
    assert (Hlt : localDepth o < globalDepth m) by lia.
    set (s := 2 ^ (globalDepth m - (localDepth o + 1))).
    assert (Hs : 0 < s) by (apply pow2_pos; lia).
    assert (Hs2 : 2 ^ (globalDepth m - localDepth o) = 2 * s).
    { unfold s. replace (globalDepth m - localDepth o)
        with (1 + (globalDepth m - (localDepth o + 1))) by lia.
      rewrite Z.pow_add_r by lia. reflexivity. }
    assert (Hlast : directoryAt m (index o + 2 * s - 1) = Some old)
      by (apply Hspan; lia).
    apply lookupZ_Some in Hlast.
    assert (Hsh : intShl1 (u8 (globalDepth m - (localDepth o + 1))) = s).
    { rewrite u8_small by lia. apply intShl1_small. lia. }
    destruct (installTables_spec m h old left right o l r s)
      as (d & h' & Hrun & Hdl & Hlook & Hfo & Hfl & Hfr); try assumption; try lia.
    + rewrite Hll. exact Hsh.
    + rewrite Hlr. exact Hsh.
    + rewrite Hlength, Hlen.
      assert (2 ^ globalDepth m < 2 ^ 62) by (apply Z.pow_lt_mono_r; lia).
      change (2 ^ 62) with 4611686018427387904 in *.
      change (2 ^ 63) with 9223372036854775808. lia.
    + rewrite Hrun. exists (set_directory d m), h'.
      split; [reflexivity |].
      unfold directoryAt. cbn [globalDepth dirLen directory set_directory].
      split; [reflexivity |]. split; [exact Hlen |]. split; [lia |].
      split; [| split; [| split; [| split; [| split]]]].
      * intros j Hj. rewrite Hlook.
        destruct (Z.leb_spec (index o) j), (Z.ltb_spec j (index o + s));
          cbn; reflexivity || lia.
      * intros j Hj. rewrite Hlook.
        destruct (Z.leb_spec (index o) j), (Z.ltb_spec j (index o + s)),
          (Z.leb_spec (index o + s) j), (Z.ltb_spec j (index o + 2 * s));
          cbn; reflexivity || lia.
      * intros j Hj Hout. rewrite Hlook.
        destruct (Z.leb_spec (index o) j), (Z.ltb_spec j (index o + s)),
          (Z.leb_spec (index o + s) j), (Z.ltb_spec j (index o + 2 * s));
          cbn; reflexivity || lia.
      * rewrite Hfo. reflexivity.
      * rewrite Hfl. reflexivity.
      * rewrite Hfr. reflexivity.
Qed.

End SmallMap.

Arguments mkTable _ _ : clear implicits.

(** *** The operations on integer keys *)

(** A hash under which the keys 1, 3, 5 share their [h2], and so do the
    keys 2 and 4. *)
Definition demoHasher (k seed : Z) : Z := Z.lxor (k * 64) seed.

(** The empty small map on integer keys and elements. *)
Definition demoEmpty : Map Z Z :=
  mkMap Z Z 0 0 (mkGroup Z Z bitsetEmpty (replicate 8 0) (replicate 8 0))
        [] 0 0 64 0.

(** The small map that holds 1, 2 and 3 in its first three slots. *)
Definition demoThree : Map Z Z :=
  mkMap Z Z 3 0
        (mkGroup Z Z 9259542123269587008 [1; 2; 3; 0; 0; 0; 0; 0]
                 [10; 20; 30; 0; 0; 0; 0; 0])
        [] 0 0 64 0.

Example demoEmpty_is_NewMap : NewMap Z Z 0 0 4 = Small demoEmpty.
Proof. reflexivity. Qed.

Example demoThree_is_reached :
  runOps Z Z 0 0 demoHasher Z.eqb false
         [OpPut Z Z 1 10; OpPut Z Z 2 20; OpPut Z Z 3 30] demoEmpty
  = Ok (Small demoThree).
Proof. vm_compute. reflexivity. Qed.

Lemma small_map_put5_delete_get_witness :
  exists m,
    runOps Z Z 0 0 demoHasher Z.eqb false
           [OpPut Z Z 1 10; OpPut Z Z 2 20; OpPut Z Z 3 30; OpPut Z Z 4 40;
            OpPut Z Z 5 50; OpDelete Z Z 3] demoEmpty = Ok (Small m) /\
    Get Z Z 0 0 demoHasher Z.eqb m 3 = Small None /\
    Get Z Z 0 0 demoHasher Z.eqb m 1 = Small (Some 10) /\
    Get Z Z 0 0 demoHasher Z.eqb m 2 = Small (Some 20) /\
    Get Z Z 0 0 demoHasher Z.eqb m 4 = Small (Some 40) /\
    Get Z Z 0 0 demoHasher Z.eqb m 5 = Small (Some 50) /\
    Used Z Z m = 4.
Proof.
  apply (small_map_put5_delete_get Z Z 0 0 demoHasher Z.eqb false Z.eqb_eq
           4 demoEmpty 1 2 3 4 5 10 20 30 40 50).
  - reflexivity.
  - repeat (constructor; [cbn; lia |]). constructor.
Defined.

Lemma small_map_never_has_tombstones_witness :
  exists m,
    runOps Z Z 0 0 demoHasher Z.eqb false
           [OpPut Z Z 1 10; OpPut Z Z 2 20; OpDelete Z Z 1; OpPutSlot Z Z 3;
            OpClear Z Z; OpPut Z Z 4 40; OpDelete Z Z 9] demoEmpty
    = Ok (Small m) /\
    dirLen Z Z m = 0 /\ noTombstone Z Z (smallGroup Z Z m).
Proof.
  destruct (runOps Z Z 0 0 demoHasher Z.eqb false
              [OpPut Z Z 1 10; OpPut Z Z 2 20; OpDelete Z Z 1; OpPutSlot Z Z 3;
               OpClear Z Z; OpPut Z Z 4 40; OpDelete Z Z 9] demoEmpty)
    as [[m |] | msg] eqn:E.
  - exists m. split; [reflexivity |].
    apply (small_map_never_has_tombstones Z Z 0 0 demoHasher Z.eqb false 4
             [OpPut Z Z 1 10; OpPut Z Z 2 20; OpDelete Z Z 1; OpPutSlot Z Z 3;
              OpClear Z Z; OpPut Z Z 4 40; OpDelete Z Z 9] demoEmpty m).
    + reflexivity.
    + exact E.
  - vm_compute in E. discriminate E.
  - vm_compute in E. discriminate E.
Defined.

Lemma putSlotSmall_finds_empty_slot_witness :
  matchEmpty (ctrls Z Z (smallGroup Z Z demoThree)) <> 0 /\
  exists r, putSlotSmall Z Z 0 Z.eqb false demoThree (demoHasher 4 0) 4 = Ok r.
Proof.
  apply (putSlotSmall_finds_empty_slot Z Z 0 Z.eqb false demoThree
           (demoHasher 4 0) 4).
  - intros i Hi. slot_cases i;
      first [left; reflexivity | right; reflexivity].
  - reflexivity.
  - reflexivity.
Defined.

(** *** A directory of depth 2 *)

(** Four directory entries over three tables: table 1 has depth 1 and the
    first two entries, tables 2 and 3 have depth 2.  Tables 4 and 5 are
    the halves a split of table 2 produces. *)
Definition demoDir : Map Z Z :=
  mkMap Z Z 100 0 (mkGroup Z Z 0 [] []) [1; 1; 2; 3]%nat 4 2 62 0.

Definition demoTables : gmap nat table :=
  <[1%nat := mkTable 0 1]> (<[2%nat := mkTable 2 2]> (<[3%nat := mkTable 3 2]>
  (<[4%nat := mkTable 0 3]> (<[5%nat := mkTable 0 3]> ∅)))).

Lemma directoryIndex_in_range_witness :
  0 <= directoryIndex Z Z demoDir 13835058055282163717 < dirLen Z Z demoDir.
Proof.
  apply (directoryIndex_in_range Z Z demoDir 13835058055282163717).
  - cbn. lia.
  - cbn. lia.
  - reflexivity.
  - cbn. lia.
  - reflexivity.
Defined.

Ltac dir_cases i H :=
  let R := fresh in
  pose proof (lookupZ_Some _ _ _ H) as R; cbn in R;
  let C := fresh in
  assert (C : i = 0 \/ i = 1 \/ i = 2 \/ i = 3) by lia;
  destruct C as [-> | [-> | [-> | ->]]].

Lemma demoDir_dirInv : dirInv Z Z demoDir demoTables.
Proof.
  constructor.
  - cbn. lia.
  - reflexivity.
  - reflexivity.
  - intros i t Hi. unfold directoryAt in *. dir_cases i Hi;
      cbn in Hi; injection Hi as <-;
      (eexists; split; [reflexivity |]; split; [cbn; lia |]);
      intros j; cbn [index localDepth globalDepth demoDir]; split.
    all: try (intros Hj; dir_cases j Hj; cbn in Hj; (discriminate Hj || (cbn; lia))).
    all: intros Hj;
      assert (C : j = 0 \/ j = 1 \/ j = 2 \/ j = 3) by (cbn in Hj; lia);
      destruct C as [-> | [-> | [-> | ->]]]; cbn in Hj; (reflexivity || lia).
Qed.

(** The split of table 2, whose depth is the depth of the directory:
    the directory doubles, and tables 4 and 5 take the two entries of
    table 2. *)
Example demoDir_split_doubles :
  (fun r => (directory Z Z (fst r), globalDepth Z Z (fst r),
             index <$> snd r !! 1%nat, index <$> snd r !! 3%nat,
             index <$> snd r !! 4%nat, index <$> snd r !! 5%nat))
    <$> installTableSplit Z Z demoDir demoTables 2 4 5
  = Some ([1; 1; 1; 1; 4; 5; 3; 3]%nat, 3, Some 0, Some 6, Some 4, Some 5).
Proof. vm_compute. reflexivity. Qed.

(** The split of table 1, which is one bit short of the directory: no
    doubling, tables 2 and 3 standing for the two halves. *)
Example demoDir_split_in_place :
  (fun r => (directory Z Z (fst r), globalDepth Z Z (fst r)))
    <$> installTableSplit Z Z (set_directory Z Z [1; 1; 4; 5]%nat demoDir)
          (<[4%nat := mkTable 2 2]> (<[5%nat := mkTable 3 2]> demoTables)) 1 2 3
  = Some ([2; 3; 4; 5]%nat, 2).
Proof. vm_compute. reflexivity. Qed.

Lemma installTableSplit_installs_spans_witness :
  exists m' h',
    installTableSplit Z Z demoDir demoTables 2 4 5 = Some (m', h') /\
    globalDepth Z Z m' = 3 /\
    directoryAt Z Z m' 4 = Some 4%nat /\
    directoryAt Z Z m' 5 = Some 5%nat /\
    directoryAt Z Z m' 7 = directoryAt Z Z demoDir 3.
Proof.
  destruct (installTableSplit_installs_spans Z Z demoDir demoTables 2 4 5
              (mkTable 2 2) (mkTable 0 3) (mkTable 0 3) 2)
    as (m' & h' & Hrun & Hdepth & _ & _ & Hleft & Hright & Hrest & _).
  - exact demoDir_dirInv.
  - reflexivity.
  - reflexivity.
  - reflexivity.
  - reflexivity.
  - reflexivity.
  - reflexivity.
  - discriminate.
  - exists m', h'. split; [exact Hrun |].
    split; [exact Hdepth |].
    split; [apply Hleft; cbn; lia |].
    split; [apply Hright; cbn; lia |].
    apply (Hrest 7); cbn; lia.
Defined.

End SwissMap.
